(** * bot-proxy: harvesting, probing and storing proxies

    A shallow embedding of [main.py] (class [ProxyBot]) and the properties
    of its harvest path, its probes and its store protocol.

    Conventions of the embedding:
    - Python [str] is [string]; the scanner of [re.findall] works on the
      character list of the text.
    - Python [int] is [Z].  Clock readings ([time.time()],
      [datetime.now(timezone.utc)]) are [Z] in microseconds, the
      resolution of [datetime].  A response time is a [Z] in milliseconds:
      [round(_, 3)] of a duration in seconds, a floating-point operation
      that the environment gives as [round_ms].
    - The outside world (wall clock, the proxied [requests.get], the
      [aiohttp] session) is an environment of oracles; the program is
      written in a state-and-exception monad over the part of the world it
      changes: the MongoDB collection and the counters of what it consumed
      from the oracles. *)

From Stdlib Require Import ZArith List String Ascii Bool Lia Arith DecimalString.
From Stdlib Require Import Permutation.
Import ListNotations.

Local Open Scope string_scope.
Local Open Scope list_scope.
Local Open Scope Z_scope.

(** ** Python values *)

(** Exceptions the modelled code can raise or catch.  [RequestError] stands
    for every exception of the HTTP client libraries (timeouts, refused
    connections, ...); it carries [str(e)]. *)
Inductive exn : Type :=
| DuplicateKeyError
| TypeError
| ValueError
| AttributeError
| RequestError (msg : string).

Inductive result (A : Type) : Type :=
| Ok (a : A)
| Raise (e : exn).
Arguments Ok {A} a.
Arguments Raise {A} e.

Definition rbind {A B} (r : result A) (f : A -> result B) : result B :=
  match r with
  | Ok a => f a
  | Raise e => Raise e
  end.

(** [for x in xs: acc = f(acc, x)], stopping at the first exception. *)
Fixpoint rfold {A B} (f : B -> A -> result B) (xs : list A) (acc : B) : result B :=
  match xs with
  | [] => Ok acc
  | x :: xs' => rbind (f acc x) (rfold f xs')
  end.

(** What [json.loads] produces (numbers restricted to integers). *)
#[local] Set Warnings "-register-all".
Inductive json : Type :=
| JNull
| JBool (b : bool)
| JInt (z : Z)
| JStr (s : string)
| JArr (items : list json)
| JObj (fields : list (string * json)).

(** The hashable values among them: what can sit in a tuple that is put in
    a [set], and what the store keeps in the [ip] field. *)
Inductive atom : Type :=
| ANone
| ABool (b : bool)
| AInt (z : Z)
| AStr (s : string).

(** Python truthiness, as used by [if not raw]. *)
Definition truthy (j : json) : bool :=
  match j with
  | JNull => false
  | JBool b => b
  | JInt z => negb (z =? 0)
  | JStr s => negb (String.eqb s "")
  | JArr l => match l with [] => false | _ => true end
  | JObj l => match l with [] => false | _ => true end
  end.

(** [d.get(key, default)] on a parsed object (keys are distinct). *)
Fixpoint dict_get (fields : list (string * json)) (key : string) (default : json) : json :=
  match fields with
  | [] => default
  | (k, v) :: rest => if String.eqb k key then v else dict_get rest key default
  end.

(** [item.get(key, default)]: only a dict has [get]. *)
Definition py_get (item : json) (key : string) (default : json) : result json :=
  match item with
  | JObj fields => Ok (dict_get fields key default)
  | _ => Raise AttributeError
  end.

Fixpoint chars_of (s : string) : list json :=
  match s with
  | EmptyString => []
  | String c s' => JStr (String c EmptyString) :: chars_of s'
  end.

(** [for x in v]: a list gives its items, a dict its keys, a string its
    characters; anything else is not iterable. *)
Definition py_iter (v : json) : result (list json) :=
  match v with
  | JArr l => Ok l
  | JObj fields => Ok (map (fun kv => JStr (fst kv)) fields)
  | JStr s => Ok (chars_of s)
  | _ => Raise TypeError
  end.

(** ** Strings *)

Definition is_digit (c : ascii) : bool :=
  let n := nat_of_ascii c in (48 <=? n)%nat && (n <=? 57)%nat.

Definition digit_val (c : ascii) : Z := Z.of_nat (nat_of_ascii c) - 48.

(** The whitespace that [int] skips around the digits of an ASCII string:
    tab, line feed, vertical tab, form feed, carriage return and space. *)
Definition is_space (c : ascii) : bool :=
  let n := nat_of_ascii c in
  ((9 <=? n)%nat && (n <=? 13)%nat) || (n =? 32)%nat.

Definition lower_char (c : ascii) : ascii :=
  let n := nat_of_ascii c in
  if ((65 <=? n)%nat && (n <=? 90)%nat)%bool then ascii_of_nat (n + 32) else c.

(** [s.lower()] *)
Fixpoint lower (s : string) : string :=
  match s with
  | EmptyString => EmptyString
  | String c s' => String (lower_char c) (lower s')
  end.

(** [s.startswith(p)] *)
Definition startswith (s p : string) : bool := String.prefix p s.

(** [p in s] *)
Fixpoint contains (p s : string) : bool :=
  if String.prefix p s then true
  else match s with
       | EmptyString => false
       | String _ s' => contains p s'
       end.

(** [s.split(sep)] for a one-character separator. *)
Fixpoint split_on (sep : ascii) (s : list ascii) : list (list ascii) :=
  match s with
  | [] => [[]]
  | c :: s' =>
      if Ascii.eqb c sep then [] :: split_on sep s'
      else match split_on sep s' with
           | [] => [[c]]
           | w :: ws => (c :: w) :: ws
           end
  end.

(** Value of a run of decimal digits, most significant first. *)
Definition digits_val (ds : list ascii) : Z :=
  fold_left (fun acc c => 10 * acc + digit_val c) ds 0.

(** The digit groups of an integer literal: [1_000] is allowed, a leading,
    trailing or doubled underscore is not.  [prev] tells whether the
    previous character was a digit. *)
Fixpoint literal_digits (prev : bool) (s : list ascii) : option (list ascii) :=
  match s with
  | [] => if prev then Some [] else None
  | c :: s' =>
      if is_digit c then option_map (cons c) (literal_digits true s')
      else if (Ascii.eqb c "_" && prev)%bool then literal_digits false s'
      else None
  end.

Fixpoint lstrip (s : list ascii) : list ascii :=
  match s with
  | c :: s' => if is_space c then lstrip s' else s
  | [] => []
  end.

Definition strip (s : list ascii) : list ascii :=
  rev (lstrip (rev (lstrip s))).

(** The default of [sys.get_int_max_str_digits()]: [int] refuses a string
    with more digits. *)
Definition MAX_STR_DIGITS : nat := 4300.

(** [int(s)] for a string: surrounding whitespace, an optional sign, then a
    decimal literal of at most [MAX_STR_DIGITS] digits. *)
Definition int_of_chars (s : list ascii) : result Z :=
  let body := strip s in
  let '(neg, ds) :=
    match body with
    | c :: r => if Ascii.eqb c "-" then (true, r)
                else if Ascii.eqb c "+" then (false, r)
                else (false, body)
    | [] => (false, body)
    end in
  match literal_digits false ds with
  | Some d =>
      if (MAX_STR_DIGITS <? List.length d)%nat then Raise ValueError
      else Ok (if neg then - digits_val d else digits_val d)
  | None => Raise ValueError
  end.

(** [int(v)] *)
Definition py_int (v : json) : result Z :=
  match v with
  | JInt z => Ok z
  | JBool b => Ok (if b then 1 else 0)
  | JStr s => int_of_chars (list_ascii_of_string s)
  | JNull | JArr _ | JObj _ => Raise TypeError
  end.

(** [v.lower()]: only a string has [lower]. *)
Definition py_lower (v : json) : result string :=
  match v with
  | JStr s => Ok (lower s)
  | _ => Raise AttributeError
  end.

(** ** Regular expressions

    The fragment of [re] that [IP_PORT_REGEX] uses: character tests,
    concatenation and greedy bounded repetition.  The matcher is the
    backtracking one of [re]: it explores the longest repetition first
    and gives way only when the rest of the pattern fails.  Texts are
    ASCII, so [\d] is one of the ten digits. *)

Inductive regex : Type :=
| Eps
| Digit                      (* \d *)
| Lit (c : ascii)
| Seq (a b : regex)
| Opt (a : regex).           (* greedy a? *)

Fixpoint exactly (n : nat) (a : regex) : regex :=
  match n with
  | O => Eps
  | S n' => Seq a (exactly n' a)
  end.

Fixpoint at_most (n : nat) (a : regex) : regex :=
  match n with
  | O => Eps
  | S n' => Opt (Seq a (at_most n' a))
  end.

(** [a{lo,hi}] *)
Definition repeat_range (a : regex) (lo hi : nat) : regex :=
  Seq (exactly lo a) (at_most (hi - lo) a).

(** [rmatch r s k]: match [r] at the head of [s], then hand the remaining
    input to the continuation [k]; the result is the input left after the
    whole match. *)
Fixpoint rmatch (r : regex) (s : list ascii)
         (k : list ascii -> option (list ascii)) : option (list ascii) :=
  match r with
  | Eps => k s
  | Digit => match s with
             | c :: s' => if is_digit c then k s' else None
             | [] => None
             end
  | Lit d => match s with
             | c :: s' => if Ascii.eqb c d then k s' else None
             | [] => None
             end
  | Seq a b => rmatch a s (fun s' => rmatch b s' k)
  | Opt a => match rmatch a s k with
             | Some out => Some out
             | None => k s
             end
  end.

(** Length of the match of [r] at the head of [s], if there is one. *)
Definition match_length (r : regex) (s : list ascii) : option nat :=
  match rmatch r s Some with
  | Some rest => Some (List.length s - List.length rest)%nat
  | None => None
  end.

(** [r.findall(s)] for a pattern without groups that cannot match the
    empty string: the matches from left to right, the scan resuming where
    the previous match ended.  [skip] counts the characters of [s] still
    covered by the last match. *)
Fixpoint findall_from (r : regex) (skip : nat) (s : list ascii) : list (list ascii) :=
  match s with
  | [] => []
  | _ :: s' =>
      match skip with
      | S n => findall_from r n s'
      | O =>
          match match_length r s with
          | Some (S n) => firstn (S n) s :: findall_from r n s'
          | _ => findall_from r 0 s'
          end
      end
  end.

Definition findall (r : regex) (s : string) : list (list ascii) :=
  findall_from r 0 (list_ascii_of_string s).

(** ** Configuration *)

Definition VALIDATION_URL : string := "http://httpbin.org/ip".
Definition VALIDATION_TIMEOUT : Z := 8.
Definition TARGET_ENDPOINT : string := "http://16.171.170.83:3000/".

Definition SOURCES : list (string * string) :=
  [ ("proxyscrape_http",
     "https://api.proxyscrape.com/v2/?request=getproxies&protocol=http&format=text&timeout=10000");
    ("proxyscrape_socks4",
     "https://api.proxyscrape.com/v2/?request=getproxies&protocol=socks4&format=text&timeout=10000");
    ("proxyscrape_socks5",
     "https://api.proxyscrape.com/v2/?request=getproxies&protocol=socks5&format=text&timeout=10000");
    ("the_speedx_http",
     "https://raw.githubusercontent.com/TheSpeedX/PROXY-List/master/http.txt");
    ("the_speedx_socks4",
     "https://raw.githubusercontent.com/TheSpeedX/PROXY-List/master/socks4.txt");
    ("the_speedx_socks5",
     "https://raw.githubusercontent.com/TheSpeedX/PROXY-List/master/socks5.txt");
    ("openproxylist_http", "https://openproxylist.xyz/http.txt");
    ("proxylist_download_http", "https://www.proxy-list.download/api/v1/get?type=http");
    ("geonode",
     "https://proxylist.geonode.com/api/proxy-list?limit=500&page=1&sort_by=lastChecked&sort_type=desc") ].

(** [(?:\d{1,3}\.){3}\d{1,3}:\d{2,5}] *)
Definition IP_PORT_REGEX : regex :=
  Seq (repeat_range (Seq (repeat_range Digit 1 3) (Lit ".")) 3 3)
      (Seq (repeat_range Digit 1 3)
           (Seq (Lit ":") (repeat_range Digit 2 5))).

(** ** Data model *)

(** A tuple [(ip, port, proto)] as [harvest_source] builds it: the [ip] of
    the geonode source is whatever the payload holds. *)
Definition raw_candidate : Type := json * Z * string.

(** A tuple that went through the [set] of [harvest_all]. *)
Definition candidate : Type := atom * Z * string.

(** A document of the collection [working_proxies]. *)
Record proxy_doc : Type := mk_doc {
  ip : atom;
  port : Z;
  protocol : string;
  is_working : bool;
  response_time : Z;
  last_checked : Z;
  status_code : Z;
  test_url : string
}.

(** The dictionary returned by [test_proxy_against_endpoint]; a key that
    the dictionary lacks is [None]. *)
Record endpoint_result : Type := mk_result {
  r_proxy : string;
  r_protocol : string;
  r_status_code : option Z;
  r_response_time : option Z;
  r_error : option string;
  r_success : bool;
  r_endpoint : string;
  r_timestamp : Z
}.

(** [str(v)] *)
Definition py_str (v : atom) : string :=
  match v with
  | ANone => "None"
  | ABool true => "True"
  | ABool false => "False"
  | AInt z => NilZero.string_of_int (Z.to_int z)
  | AStr s => s
  end.

Definition str_of_int (z : Z) : string := NilZero.string_of_int (Z.to_int z).

(** ** The outside world *)

(** A call [requests.get(url, proxies=..., timeout=...)]. *)
Record request : Type := mk_request {
  req_url : string;
  req_proxies : list (string * string);
  req_timeout : Z
}.

(** Its outcome: a response with a status code, or an exception (timeout,
    refused connection, ...) with its message. *)
Inductive reply : Type :=
| Responded (status : Z)
| Failed (msg : string).

(** A response of the [aiohttp] session; [resp_json] is what [resp.json()]
    gives, which can raise. *)
Record http_response : Type := mk_response {
  resp_status : Z;
  content_type : string;
  resp_text : string;
  resp_json : result json
}.

Inductive fetch_reply : Type :=
| Fetched (r : http_response)
| FetchFailed (msg : string).

(** The oracles: the [n]-th reading of the clock, the outcome of the
    [n]-th proxied request, the outcome of the [n]-th fetch, and the
    rounding [round(d, 3)] of a duration: from the difference of two
    readings of the clock to milliseconds. *)
Record env : Type := mk_env {
  clock : nat -> Z;
  requests_get : nat -> request -> reply;
  session_get : nat -> string -> fetch_reply;
  round_ms : Z -> Z
}.

(** What the program changes: how much it consumed of each oracle, and the
    collection. *)
Record world : Type := mk_world {
  clock_reads : nat;
  sent : list request;
  fetched : list string;
  collection : list proxy_doc
}.

(** ** The monad of the program *)

Definition M (A : Type) : Type := world -> result A * world.

Definition ret {A} (a : A) : M A := fun w => (Ok a, w).

Definition raise {A} (e : exn) : M A := fun w => (Raise e, w).

Definition bind {A B} (m : M A) (f : A -> M B) : M B :=
  fun w =>
    match m w with
    | (Ok a, w') => f a w'
    | (Raise e, w') => (Raise e, w')
    end.

(** [try: m except Exception as e: h(e)] *)
Definition try_catch {A} (m : M A) (h : exn -> M A) : M A :=
  fun w =>
    match m w with
    | (Ok a, w') => (Ok a, w')
    | (Raise e, w') => h e w'
    end.

Definition lift {A} (r : result A) : M A := fun w => (r, w).

Notation "x <- m ;; k" := (bind m (fun x => k))
  (at level 61, m at next level, right associativity).
Notation "m ;;; k" := (bind m (fun _ => k))
  (at level 61, right associativity).

(** [for x in xs: body(x)] *)
Fixpoint for_each {A} (xs : list A) (body : A -> M unit) : M unit :=
  match xs with
  | [] => ret tt
  | x :: xs' => body x ;;; for_each xs' body
  end.

(** [for x in xs: acc = body(acc, x)] *)
Fixpoint for_fold {A B} (xs : list A) (body : B -> A -> M B) (acc : B) : M B :=
  match xs with
  | [] => ret acc
  | x :: xs' => acc' <- body acc x ;; for_fold xs' body acc'
  end.

Definition exec {A} (m : M A) (w : world) : world := snd (m w).
Definition value {A} (m : M A) (w : world) : result A := fst (m w).

(** ** The collection

    [working_proxies] with its unique index on [(ip, port, protocol)]; a
    list in insertion order. *)

Definition identity : Type := atom * Z * string.

Definition key_of (d : proxy_doc) : identity := (ip d, port d, protocol d).

Definition atom_eq_dec (a b : atom) : {a = b} + {a <> b}.
Proof.
  decide equality; auto using Bool.bool_dec, Z.eq_dec, string_dec.
Defined.

Definition identity_eq_dec (a b : identity) : {a = b} + {a <> b}.
Proof.
  decide equality; auto using string_dec.
  decide equality; auto using Z.eq_dec, atom_eq_dec.
Defined.

(** The filter [{"ip": .., "port": .., "protocol": ..}]. *)
Definition same_key (k : identity) (d : proxy_doc) : bool :=
  if identity_eq_dec (key_of d) k then true else false.

(** [collection.insert_one(doc)] under the unique index. *)
Definition insert_one (d : proxy_doc) (c : list proxy_doc) : result (list proxy_doc) :=
  if existsb (same_key (key_of d)) c then Raise DuplicateKeyError
  else Ok (c ++ [d]).

(** [{"$set": {"last_checked": lc, "response_time": rt}}] *)
Definition set_checked (lc rt : Z) (d : proxy_doc) : proxy_doc :=
  mk_doc (ip d) (port d) (protocol d) (is_working d) rt lc (status_code d) (test_url d).

(** [collection.update_one(filter, update)]: the first document that the
    filter selects is updated, if there is one. *)
Fixpoint update_one (k : identity) (upd : proxy_doc -> proxy_doc)
         (c : list proxy_doc) : list proxy_doc :=
  match c with
  | [] => []
  | d :: c' => if same_key k d then upd d :: c' else d :: update_one k upd c'
  end.

(** [collection.find({"is_working": True})] *)
Definition find_working (c : list proxy_doc) : list proxy_doc :=
  filter is_working c.

(** The invariant that the unique index of [__init__] maintains. *)
Definition unique_index (c : list proxy_doc) : Prop := NoDup (map key_of c).


(** ** Sets of tuples *)

(** [hash(v)]: lists and dicts are unhashable. *)
Definition hash_key (v : json) : result atom :=
  match v with
  | JNull => Ok ANone
  | JBool b => Ok (ABool b)
  | JInt z => Ok (AInt z)
  | JStr s => Ok (AStr s)
  | JArr _ | JObj _ => Raise TypeError
  end.

(** Python's [==] on hashable values: [True == 1] and [False == 0]. *)
Definition atom_eqb (a b : atom) : bool :=
  match a, b with
  | ANone, ANone => true
  | AStr s, AStr t => String.eqb s t
  | ABool x, ABool y => Bool.eqb x y
  | AInt x, AInt y => x =? y
  | ABool x, AInt y => (if x then 1 else 0) =? y
  | AInt x, ABool y => x =? (if y then 1 else 0)
  | _, _ => false
  end.

Definition candidate_eqb (a b : candidate) : bool :=
  let '(ia, pa, ra) := a in
  let '(ib, pb, rb) := b in
  atom_eqb ia ib && (pa =? pb) && String.eqb ra rb.

(** [s.add(c)]: an element equal to one of the set is not added.  The set
    is kept in insertion order; Python promises no order. *)
Definition set_add (s : list candidate) (c : candidate) : list candidate :=
  if existsb (candidate_eqb c) s then s else s ++ [c].

(** [{(p[0], p[1], p[2]) for p in proxies}] *)
Definition unique_proxies (proxies : list raw_candidate) : result (list candidate) :=
  rfold (fun s p =>
           let '(i, pt, pr) := p in
           rbind (hash_key i) (fun a => Ok (set_add s (a, pt, pr))))
        proxies [].

(** [for r in results: if r: proxies.extend(r)] *)
Definition merge_results (results : list (list raw_candidate)) : list raw_candidate :=
  fold_left (fun proxies r => match r with [] => proxies | _ => proxies ++ r end)
            results [].

(** ** Parsing a payload: the body of [harvest_source] *)

Definition proto_hint (name : string) : string :=
  if contains "http" name then "http"
  else if contains "socks5" name then "socks5"
  else "socks4".

(** The geonode branch: one entry of [raw["data"]]. *)
Definition harvest_geonode_item (results : list raw_candidate) (item : json)
  : result (list raw_candidate) :=
  rbind (py_get item "ip" JNull) (fun i =>
  rbind (py_get item "port" (JInt 0)) (fun p =>
  rbind (py_int p) (fun pt =>
  rbind (py_get item "protocols" (JArr [])) (fun protos =>
  rbind (py_iter protos) (fun protos =>
  rfold (fun results proto =>
           rbind (py_lower proto) (fun pr => Ok (results ++ [(i, pt, pr)])))
        protos results))))).

(** The text branch: one match of the pattern. *)
Definition harvest_text_match (hint : string) (results : list raw_candidate)
           (ip_port : list ascii) : result (list raw_candidate) :=
  match split_on ":" ip_port with
  | [i; p] =>
      rbind (int_of_chars p) (fun pt =>
      Ok (results ++ [(JStr (string_of_list_ascii i), pt, hint)]))
  | _ => Raise ValueError
  end.

Definition harvest_payload (name : string) (raw : json) : result (list raw_candidate) :=
  match raw with
  | JObj fields =>
      if String.eqb name "geonode" then
        rbind (py_iter (dict_get fields "data" (JArr []))) (fun items =>
        rfold harvest_geonode_item items [])
      else Ok []
  | JStr text =>
      rfold (harvest_text_match (proto_hint name)) (findall IP_PORT_REGEX text) []
  | _ => Ok []
  end.

(** ** ProxyBot *)

Section ProxyBot.

Variable E : env.

(** [time.time()], [datetime.now(timezone.utc)] *)
Definition now : M Z :=
  fun w =>
    (Ok (clock E (clock_reads w)),
     mk_world (S (clock_reads w)) (sent w) (fetched w) (collection w)).

(** [requests.get(...)]: the status code of the response, or the
    exception. *)
Definition http_get (r : request) : M Z :=
  fun w =>
    let w' := mk_world (clock_reads w) (sent w ++ [r]) (fetched w) (collection w) in
    match requests_get E (List.length (sent w)) r with
    | Responded status => (Ok status, w')
    | Failed msg => (Raise (RequestError msg), w')
    end.

(** [self.session.get(url, timeout=20)] *)
Definition session_fetch (url : string) : M http_response :=
  fun w =>
    let w' := mk_world (clock_reads w) (sent w) (fetched w ++ [url]) (collection w) in
    match session_get E (List.length (fetched w)) url with
    | Fetched r => (Ok r, w')
    | FetchFailed msg => (Raise (RequestError msg), w')
    end.

Definition read_collection : M (list proxy_doc) :=
  fun w => (Ok (collection w), w).

(** A write to the collection, which the store accepts or refuses. *)
Definition write_collection (f : list proxy_doc -> result (list proxy_doc)) : M unit :=
  fun w =>
    match f (collection w) with
    | Ok c' => (Ok tt, mk_world (clock_reads w) (sent w) (fetched w) c')
    | Raise e => (Raise e, w)
    end.

(** [fetch]: the payload of a source, or [None]. *)
Definition fetch (url : string) : M (option json) :=
  try_catch
    (resp <- session_fetch url ;;
     if resp_status resp =? 200 then
       if contains "json" (content_type resp) then
         j <- lift (resp_json resp) ;; ret (Some j)
       else ret (Some (JStr (resp_text resp)))
     else ret None)
    (fun _ => ret None).

Definition harvest_source (name url : string) : M (list raw_candidate) :=
  raw <- fetch url ;;
  match raw with
  | None => ret []
  | Some raw => if truthy raw then lift (harvest_payload name raw) else ret []
  end.

(** [harvest_all]: the sources are taken in the order of [SOURCES]; the
    first exception of a source is the exception of [gather]. *)
Definition harvest_all : M (list candidate) :=
  results <- for_fold SOURCES
               (fun results src =>
                  r <- harvest_source (fst src) (snd src) ;;
                  ret (results ++ [r]))
               [] ;;
  lift (unique_proxies (merge_results results)).

Definition proxy_url (i : atom) (pt : Z) (proto : string) : string :=
  (proto ++ "://" ++ py_str i ++ ":" ++ str_of_int pt)%string.

Definition proxies_for (i : atom) (pt : Z) (proto : string) : list (string * string) :=
  if startswith proto "http"
  then [(proto, proxy_url i pt proto); ((proto ++ "s")%string, proxy_url i pt proto)]
  else [(proto, proxy_url i pt proto)].

Definition probe_request (target : string) (i : atom) (pt : Z) (proto : string) : request :=
  mk_request target (proxies_for i pt proto) VALIDATION_TIMEOUT.

Definition validate_proxy (proxy_tuple : candidate) : M (option proxy_doc) :=
  let '(i, pt, proto) := proxy_tuple in
  try_catch
    (start <- now ;;
     status <- http_get (probe_request VALIDATION_URL i pt proto) ;;
     if status =? 200 then
       finish <- now ;;
       let elapsed := round_ms E (finish - start) in
       checked <- now ;;
       ret (Some (mk_doc i pt proto true elapsed checked status VALIDATION_URL))
     else ret None)
    (fun _ => ret None).

Definition store_proxy (doc : proxy_doc) : M unit :=
  try_catch
    (write_collection (insert_one doc))
    (fun e =>
       match e with
       | DuplicateKeyError =>
           checked <- now ;;
           write_collection
             (fun c => Ok (update_one (key_of doc)
                                      (set_checked checked (response_time doc)) c))
       | _ => raise e
       end).

(** [validate_and_store_all]: [executor.map] yields the outcomes in the
    order of [proxies], and each is stored as it is yielded. *)
Definition validate_and_store_all (proxies : list candidate) : M unit :=
  for_each proxies
    (fun p =>
       doc <- validate_proxy p ;;
       match doc with
       | Some d => store_proxy d
       | None => ret tt
       end).

(** [str(e)] *)
Definition exn_str (e : exn) : string :=
  match e with
  | RequestError msg => msg
  | DuplicateKeyError => "DuplicateKeyError"
  | TypeError => "TypeError"
  | ValueError => "ValueError"
  | AttributeError => "AttributeError"
  end.

Definition test_proxy_against_endpoint (doc : proxy_doc) (endpoint_url : string)
  : M endpoint_result :=
  let name := (py_str (ip doc) ++ ":" ++ str_of_int (port doc))%string in
  try_catch
    (start <- now ;;
     status <- http_get (probe_request endpoint_url (ip doc) (port doc) (protocol doc)) ;;
     finish <- now ;;
     let elapsed := round_ms E (finish - start) in
     stamp <- now ;;
     ret (mk_result name (protocol doc) (Some status) (Some elapsed) None
                    (status =? 200) endpoint_url stamp))
    (fun e =>
       stamp <- now ;;
       ret (mk_result name (protocol doc) None None (Some (exn_str e))
                      false endpoint_url stamp)).

(** [test_all_proxies_against_endpoint].  A result is a dictionary with
    keys, hence true in [if result:], and is appended.  The results are
    read in the order of submission; the probes run on a pool of threads,
    which sends the requests in an order of its own, of which the order of
    submission is one. *)
Definition test_all_proxies_against_endpoint (endpoint_url : string)
  : M (list endpoint_result) :=
  c <- read_collection ;;
  match find_working c with
  | [] => ret []
  | working_proxies =>
      for_fold working_proxies
        (fun results proxy =>
           r <- test_proxy_against_endpoint proxy endpoint_url ;;
           ret (results ++ [r]))
        []
  end.

Definition run_once : M unit :=
  harvested <- harvest_all ;;
  validate_and_store_all harvested.

Definition get_proxy_stats : M (nat * nat) :=
  c <- read_collection ;;
  ret (List.length c, List.length (find_working c)).

(** What the command line and the scheduling loops run, one after the
    other, on the same collection. *)
Inductive operation : Type :=
| OpHarvest
| OpTestEndpoint (endpoint_url : string)
| OpStats.

Definition run_operation (o : operation) : M unit :=
  match o with
  | OpHarvest => run_once
  | OpTestEndpoint url => test_all_proxies_against_endpoint url ;;; ret tt
  | OpStats => get_proxy_stats ;;; ret tt
  end.

(** The collection outlives an operation that ends with an exception. *)
Fixpoint run_operations (ops : list operation) (w : world) : world :=
  match ops with
  | [] => w
  | o :: ops' => run_operations ops' (exec (run_operation o) w)
  end.

End ProxyBot.

(** * Properties *)

(** ** The collection *)

Lemma same_key_true k d : same_key k d = true <-> key_of d = k.
Proof.
  unfold same_key. destruct (identity_eq_dec (key_of d) k); split; congruence.
Qed.

Lemma same_key_false k d : same_key k d = false <-> key_of d <> k.
Proof.
  unfold same_key. destruct (identity_eq_dec (key_of d) k); split; congruence.
Qed.

Lemma has_key_In k c :
  existsb (same_key k) c = true <-> In k (map key_of c).
Proof.
  rewrite existsb_exists, in_map_iff. split.
  - intros (d & Hin & Hk). exists d. apply same_key_true in Hk. auto.
  - intros (d & Hk & Hin). exists d. split; [assumption|]. now apply same_key_true.
Qed.

Lemma has_key_not_In k c :
  existsb (same_key k) c = false <-> ~ In k (map key_of c).
Proof.
  rewrite <- has_key_In. destruct (existsb (same_key k) c); split; congruence.
Qed.

(** The first row of an identity, with what is before and after it. *)
Lemma first_row_split k c :
  In k (map key_of c) ->
  exists pre row post,
    c = pre ++ row :: post /\ key_of row = k /\
    (forall r, In r pre -> key_of r <> k).
Proof.
  induction c as [|d c IH]; simpl; [tauto|].
  intros H. destruct (identity_eq_dec (key_of d) k) as [Heq|Hne].
  - exists [], d, c. simpl. auto.
  - destruct H as [H|H]; [contradiction|].
    destruct (IH H) as (pre & row & post & -> & Hk & Hpre).
    exists (d :: pre), row, post. simpl. repeat split; auto.
    intros r [<-|Hr]; auto.
Qed.

Lemma update_one_first k upd pre row post :
  key_of row = k ->
  (forall r, In r pre -> key_of r <> k) ->
  update_one k upd (pre ++ row :: post) = pre ++ upd row :: post.
Proof.
  intros Hk. induction pre as [|d pre IH]; simpl; intros Hpre.
  - apply same_key_true in Hk. now rewrite Hk.
  - assert (Hd : same_key k d = false) by (apply same_key_false; auto).
    rewrite Hd, IH; auto.
Qed.

Lemma map_key_update_one k lc rt c :
  map key_of (update_one k (set_checked lc rt) c) = map key_of c.
Proof.
  induction c as [|d c IH]; simpl; [reflexivity|].
  destruct (same_key k d); simpl; [reflexivity|now rewrite IH].
Qed.




(** What [store_proxy] does, in one equation: an insert when the identity
    is new, else one reading of the clock and an update. *)
Lemma store_proxy_eq E doc w :
  store_proxy E doc w =
  if existsb (same_key (key_of doc)) (collection w)
  then (Ok tt,
        mk_world (S (clock_reads w)) (sent w) (fetched w)
          (update_one (key_of doc)
             (set_checked (clock E (clock_reads w)) (response_time doc))
             (collection w)))
  else (Ok tt,
        mk_world (clock_reads w) (sent w) (fetched w) (collection w ++ [doc])).
Proof.
  unfold store_proxy, try_catch, write_collection, insert_one.
  destruct (existsb (same_key (key_of doc)) (collection w)); reflexivity.
Qed.

Lemma store_proxy_unique E doc w :
  unique_index (collection w) ->
  unique_index (collection (exec (store_proxy E doc) w)).
Proof.
  unfold exec, unique_index. rewrite store_proxy_eq.
  destruct (existsb (same_key (key_of doc)) (collection w)) eqn:Hex; simpl; intros Hnd.
  - now rewrite map_key_update_one.
  - rewrite map_app. simpl. apply has_key_not_In in Hex.
    apply NoDup_app; [assumption|repeat constructor; simpl; tauto|].
    intros k Hk [<-|[]]. contradiction.
Qed.







(** C4 (frame of the fallback update).  When [store_proxy] meets a row of
    the same (ip, port, protocol), it returns normally, and the collection
    is the old one with, in the first row of that identity, [last_checked]
    set to the clock and [response_time] to the record's; [is_working],
    [status_code], [test_url] and the identity of that row, and every other
    row, are as before. *)
Theorem store_proxy_duplicate_updates_two_fields E doc w :
  In (key_of doc) (map key_of (collection w)) ->
  value (store_proxy E doc) w = Ok tt /\
  exists pre row post,
    collection w = pre ++ row :: post /\
    key_of row = key_of doc /\
    (forall r, In r pre -> key_of r <> key_of doc) /\
    let row' := set_checked (clock E (clock_reads w)) (response_time doc) row in
    collection (exec (store_proxy E doc) w) = pre ++ row' :: post /\
    last_checked row' = clock E (clock_reads w) /\
    response_time row' = response_time doc /\
    ip row' = ip row /\ port row' = port row /\ protocol row' = protocol row /\
    is_working row' = is_working row /\
    status_code row' = status_code row /\
    test_url row' = test_url row.
Proof.
  intros Hin. unfold value, exec. rewrite store_proxy_eq.
  pose proof Hin as Hex. apply has_key_In in Hex. rewrite Hex. simpl.
  split; [reflexivity|].
  destruct (first_row_split _ _ Hin) as (pre & row & post & Hc & Hk & Hpre).
  exists pre, row, post. rewrite Hc at 2.
  rewrite update_one_first by assumption.
  repeat split; auto.
Qed.


(** ** Relations that every step of the program respects *)

Section Stability.

Variable E : env.
Variable R : world -> world -> Prop.
Hypothesis R_refl : forall w, R w w.
Hypothesis R_trans : forall a b c, R a b -> R b c -> R a c.
Hypothesis R_frame : forall w w', collection w' = collection w -> R w w'.

(** [m] takes every world to a world related to it, whether it returns or
    raises. *)
Definition stable {A} (m : M A) : Prop := forall w, R w (exec m w).

Lemma stable_ret {A} (a : A) : stable (ret a).
Proof. intros w. apply R_refl. Qed.

Lemma stable_raise {A} (e : exn) : stable (@raise A e).
Proof. intros w. apply R_refl. Qed.

Lemma stable_lift {A} (r : result A) : stable (lift r).
Proof. intros w. apply R_refl. Qed.

Lemma stable_bind {A B} (m : M A) (f : A -> M B) :
  stable m -> (forall a, stable (f a)) -> stable (bind m f).
Proof.
  intros Hm Hf w. specialize (Hm w). unfold exec, bind in *.
  destruct (m w) as [[a|e] w']; simpl in *; [|assumption].
  eapply R_trans; [exact Hm|apply Hf].
Qed.

Lemma stable_try_catch {A} (m : M A) (h : exn -> M A) :
  stable m -> (forall e, stable (h e)) -> stable (try_catch m h).
Proof.
  intros Hm Hh w. specialize (Hm w). unfold exec, try_catch in *.
  destruct (m w) as [[a|e] w']; simpl in *; [assumption|].
  eapply R_trans; [exact Hm|apply Hh].
Qed.

Lemma stable_for_each {A} (xs : list A) (body : A -> M unit) :
  (forall x, stable (body x)) -> stable (for_each xs body).
Proof.
  intros Hb. induction xs as [|x xs IH]; simpl.
  - apply stable_ret.
  - apply stable_bind; auto.
Qed.

Lemma stable_for_fold {A B} (xs : list A) (body : B -> A -> M B) (acc : B) :
  (forall b x, stable (body b x)) -> stable (for_fold xs body acc).
Proof.
  intros Hb. revert acc. induction xs as [|x xs IH]; intros acc; simpl.
  - apply stable_ret.
  - apply stable_bind; auto.
Qed.

Lemma stable_now : stable (now E).
Proof. intros w. apply R_frame. reflexivity. Qed.

Lemma stable_http_get r : stable (http_get E r).
Proof.
  intros w. apply R_frame. unfold exec, http_get.
  destruct (requests_get E (List.length (sent w)) r); reflexivity.
Qed.

Lemma stable_session_fetch url : stable (session_fetch E url).
Proof.
  intros w. apply R_frame. unfold exec, session_fetch.
  destruct (session_get E (List.length (fetched w)) url); reflexivity.
Qed.

Lemma stable_read_collection : stable read_collection.
Proof. intros w. apply R_refl. Qed.

Ltac stable_step :=
  first
    [ apply stable_ret | apply stable_raise | apply stable_lift
    | apply stable_now | apply stable_http_get | apply stable_session_fetch
    | apply stable_read_collection
    | apply stable_bind; [|intros ?]
    | apply stable_try_catch; [|intros ?]
    | apply stable_for_each; intros ?
    | apply stable_for_fold; intros ? ?
    | match goal with
      | |- stable (if ?b then _ else _) => destruct b
      | |- stable (match ?x with _ => _ end) => destruct x
      end ].

Lemma stable_fetch url : stable (fetch E url).
Proof. unfold fetch. repeat stable_step. Qed.

Lemma stable_harvest_source name url : stable (harvest_source E name url).
Proof. unfold harvest_source. apply stable_bind; [apply stable_fetch|]. intros ?. repeat stable_step. Qed.

Lemma stable_harvest_all : stable (harvest_all E).
Proof.
  unfold harvest_all. apply stable_bind; [|intros; apply stable_lift].
  apply stable_for_fold. intros b x.
  apply stable_bind; [apply stable_harvest_source|intros; apply stable_ret].
Qed.

Lemma stable_validate_proxy p : stable (validate_proxy E p).
Proof. destruct p as [[i pt] proto]. unfold validate_proxy. repeat stable_step. Qed.

Lemma stable_test_proxy doc url : stable (test_proxy_against_endpoint E doc url).
Proof. unfold test_proxy_against_endpoint. repeat stable_step. Qed.

Lemma stable_test_all url : stable (test_all_proxies_against_endpoint E url).
Proof.
  unfold test_all_proxies_against_endpoint.
  apply stable_bind; [apply stable_read_collection|]. intros c.
  destruct (find_working c); [apply stable_ret|].
  apply stable_for_fold. intros b x.
  apply stable_bind; [apply stable_test_proxy|intros; apply stable_ret].
Qed.

Lemma stable_get_proxy_stats : stable get_proxy_stats.
Proof. unfold get_proxy_stats. repeat stable_step. Qed.

(** The one place where the collection is written. *)
Hypothesis R_store : forall doc, stable (store_proxy E doc).

Lemma stable_validate_and_store_all proxies : stable (validate_and_store_all E proxies).
Proof.
  unfold validate_and_store_all. apply stable_for_each. intros p.
  apply stable_bind; [apply stable_validate_proxy|].
  intros [d|]; [apply R_store|apply stable_ret].
Qed.

Lemma stable_run_once : stable (run_once E).
Proof.
  unfold run_once. apply stable_bind; [apply stable_harvest_all|].
  intros ?. apply stable_validate_and_store_all.
Qed.

Lemma stable_run_operation o : stable (run_operation E o).
Proof.
  destruct o; simpl.
  - apply stable_run_once.
  - apply stable_bind; [apply stable_test_all|intros; apply stable_ret].
  - apply stable_bind; [apply stable_get_proxy_stats|intros; apply stable_ret].
Qed.

Lemma stable_run_operations ops w : R w (run_operations E ops w).
Proof.
  revert w. induction ops as [|o ops IH]; intros w; simpl.
  - apply R_refl.
  - eapply R_trans; [apply stable_run_operation|apply IH].
Qed.

End Stability.

(** ** The collection only grows *)

(** A row as it may be after later operations: same identity, same
    [is_working], [status_code] and [test_url]. *)
Definition row_kept (r r' : proxy_doc) : Prop :=
  key_of r' = key_of r /\ is_working r' = is_working r /\
  status_code r' = status_code r /\ test_url r' = test_url r.

(** [c'] has the rows of [c], in place, and possibly more after them. *)
Definition grows (c c' : list proxy_doc) : Prop :=
  exists kept added, c' = kept ++ added /\ Forall2 row_kept c kept.

Definition store_grows (w w' : world) : Prop := grows (collection w) (collection w').

Lemma row_kept_refl r : row_kept r r.
Proof. repeat split. Qed.

Lemma row_kept_trans a b c : row_kept a b -> row_kept b c -> row_kept a c.
Proof. unfold row_kept. intuition congruence. Qed.

Lemma Forall2_row_kept_refl c : Forall2 row_kept c c.
Proof. induction c; constructor; auto using row_kept_refl. Qed.

Lemma Forall2_row_kept_trans a b c :
  Forall2 row_kept a b -> Forall2 row_kept b c -> Forall2 row_kept a c.
Proof.
  intros Hab. revert c. induction Hab; intros c Hbc; inversion Hbc; subst;
    constructor; eauto using row_kept_trans.
Qed.

Lemma grows_refl c : grows c c.
Proof.
  exists c, []. split; [now rewrite app_nil_r|apply Forall2_row_kept_refl].
Qed.

Lemma grows_trans a b c : grows a b -> grows b c -> grows a c.
Proof.
  intros (k1 & t1 & -> & H1) (k2 & t2 & -> & H2).
  apply Forall2_app_inv_l in H2 as (k2a & k2b & Ha & Hb & ->).
  exists k2a, (k2b ++ t2). split; [now rewrite app_assoc|].
  eapply Forall2_row_kept_trans; eassumption.
Qed.

Lemma grows_update_one k lc rt c : grows c (update_one k (set_checked lc rt) c).
Proof.
  exists (update_one k (set_checked lc rt) c), []. split; [now rewrite app_nil_r|].
  induction c as [|d c IH]; simpl; [constructor|].
  destruct (same_key k d); constructor;
    auto using Forall2_row_kept_refl, row_kept_refl.
  repeat split.
Qed.

Lemma store_grows_refl w : store_grows w w.
Proof. apply grows_refl. Qed.

Lemma store_grows_trans a b c : store_grows a b -> store_grows b c -> store_grows a c.
Proof. apply grows_trans. Qed.

Lemma store_grows_frame w w' : collection w' = collection w -> store_grows w w'.
Proof. unfold store_grows. intros ->. apply grows_refl. Qed.

Lemma store_proxy_grows E doc : stable store_grows (store_proxy E doc).
Proof.
  intros w. unfold store_grows, exec. rewrite store_proxy_eq.
  destruct (existsb (same_key (key_of doc)) (collection w)); simpl.
  - apply grows_update_one.
  - exists (collection w), [doc]. split; [reflexivity|apply Forall2_row_kept_refl].
Qed.

Lemma grows_length c c' : grows c c' -> (List.length c <= List.length c')%nat.
Proof.
  intros (kept & added & -> & H). apply Forall2_length in H.
  rewrite length_app. lia.
Qed.

Lemma grows_working c c' row :
  grows c c' -> In row c -> is_working row = true ->
  exists row', In row' (find_working c') /\ key_of row' = key_of row.
Proof.
  intros (kept & added & -> & H) Hin Hw.
  induction H as [|r r' c kept Hr H IH]; [contradiction|].
  destruct Hin as [->|Hin].
  - exists r'. destruct Hr as (Hk & Hiw & _). split; [|assumption].
    unfold find_working. apply filter_In. split; [now left|congruence].
  - destruct (IH Hin) as (row' & Hin' & Hk). exists row'. split; [|assumption].
    unfold find_working in *. apply filter_In in Hin' as [Hin' Hw'].
    apply filter_In. split; [now right|assumption].
Qed.

(** C10 (the store is monotone).  Whatever operations the program runs,
    in any order and with any outcome of the network and of the clock, the
    collection never gets shorter, and a row with [is_working] true still
    has a row of its identity in the result of
    [find({"is_working": True})]. *)
Theorem working_set_is_monotone E ops w :
  let w' := run_operations E ops w in
  (List.length (collection w) <= List.length (collection w'))%nat /\
  forall row,
    In row (collection w) -> is_working row = true ->
    exists row', In row' (find_working (collection w')) /\ key_of row' = key_of row.
Proof.
  intros w'.
  assert (H : store_grows w w').
  { apply stable_run_operations;
      auto using store_grows_refl, store_grows_frame, store_proxy_grows.
    apply store_grows_trans. }
  split.
  - now apply grows_length.
  - intros row. now apply grows_working.
Qed.

(** ** Probes *)

(** [validate_proxy] in one equation: one reading of the clock, one
    request, and on status 200 two more readings. *)
Lemma validate_proxy_eq E i pt proto w :
  validate_proxy E (i, pt, proto) w =
  let req := probe_request VALIDATION_URL i pt proto in
  let t := clock_reads w in
  match requests_get E (List.length (sent w)) req with
  | Responded status =>
      if status =? 200 then
        (Ok (Some (mk_doc i pt proto true (round_ms E (clock E (S t) - clock E t))
                          (clock E (S (S t))) status VALIDATION_URL)),
         mk_world (S (S (S t))) (sent w ++ [req]) (fetched w) (collection w))
      else (Ok None, mk_world (S t) (sent w ++ [req]) (fetched w) (collection w))
  | Failed _ => (Ok None, mk_world (S t) (sent w ++ [req]) (fetched w) (collection w))
  end.
Proof.
  unfold validate_proxy, try_catch, bind, now, http_get. simpl.
  destruct (requests_get E (List.length (sent w))
              (probe_request VALIDATION_URL i pt proto)) as [status|msg]; simpl;
    [|reflexivity].
  destruct (status =? 200); reflexivity.
Qed.

(** The request of a probe, spelled out: the target, the mapping
    [{proto: url}], with [proto + "s"] as a second key when the protocol
    starts with "http", where [url] is [proto://ip:port], and the timeout
    of 8 seconds. *)
Lemma probe_request_spelled target i pt proto :
  probe_request target i pt proto =
  let url := (proto ++ "://" ++ py_str i ++ ":" ++ str_of_int pt)%string in
  mk_request target
    (if String.prefix "http" proto
     then [(proto, url); ((proto ++ "s")%string, url)]
     else [(proto, url)])
    8.
Proof. reflexivity. Qed.

(** The harvest-path validator.  [validate_proxy] sends exactly one
    request: to http://httpbin.org/ip, with the mapping made of the
    candidate and the timeout of 8 seconds.  If it is answered with status
    200, the result is the record with [is_working] true, the rounded time
    elapsed between the readings of the clock around the request, the
    status code and the clock read next; for any other answer, and for any
    exception (timeout, network error), the result is [None].  So a record
    is returned exactly for an answer with status 200. *)
Lemma validate_proxy_outcome E i pt proto w :
  let url := (proto ++ "://" ++ py_str i ++ ":" ++ str_of_int pt)%string in
  let req :=
    mk_request "http://httpbin.org/ip"
      (if String.prefix "http" proto
       then [(proto, url); ((proto ++ "s")%string, url)]
       else [(proto, url)])
      8 in
  let out := requests_get E (List.length (sent w)) req in
  let t := clock_reads w in
  sent (exec (validate_proxy E (i, pt, proto)) w) = sent w ++ [req] /\
  (out = Responded 200 ->
   value (validate_proxy E (i, pt, proto)) w =
   Ok (Some (mk_doc i pt proto true (round_ms E (clock E (S t) - clock E t))
                    (clock E (S (S t))) 200 "http://httpbin.org/ip"))) /\
  (out <> Responded 200 -> value (validate_proxy E (i, pt, proto)) w = Ok None) /\
  (forall doc,
     value (validate_proxy E (i, pt, proto)) w = Ok (Some doc) -> out = Responded 200).
Proof.
  intros url req out t. subst out.
  assert (Hreq : probe_request VALIDATION_URL i pt proto = req) by reflexivity.
  unfold value, exec. rewrite validate_proxy_eq.
  cbv zeta. rewrite Hreq. fold t.
  destruct (requests_get E (List.length (sent w)) req) as [status|msg]; simpl.
  - destruct (status =? 200) eqn:Hs; simpl.
    + apply Z.eqb_eq in Hs. subst status.
      split; [reflexivity|]. split; [reflexivity|]. split; [|reflexivity].
      intros H. now elim H.
    + apply Z.eqb_neq in Hs.
      split; [reflexivity|]. split; [congruence|]. split; [reflexivity|].
      discriminate.
  - split; [reflexivity|]. split; [discriminate|]. split; [reflexivity|].
    discriminate.
Qed.

(** *** Which proxy a request uses

    What the [requests] library does with the [proxies] mapping of a call
    ([requests.utils.select_proxy], with no proxy settings in the
    environment of the process): with the scheme and the host name of the
    target URL it looks up, in this order, the keys [scheme://host],
    [scheme], [all://host] and [all]; when the mapping has none of them
    the connection to the target is direct. *)

Fixpoint dict_lookup (key : string) (d : list (string * string)) : option string :=
  match d with
  | [] => None
  | (k, v) :: rest => if String.eqb k key then Some v else dict_lookup key rest
  end.

(** The text before the first occurrence of [sep], and the text after it. *)
Fixpoint text_before (sep s : string) : string :=
  if String.prefix sep s then EmptyString
  else match s with
       | EmptyString => EmptyString
       | String c s' => String c (text_before sep s')
       end.

Fixpoint text_after (sep s : string) : string :=
  if String.prefix sep s
  then String.substring (String.length sep) (String.length s - String.length sep) s
  else match s with
       | EmptyString => EmptyString
       | String _ s' => text_after sep s'
       end.

(** The host name at the head of what follows [://]: up to the port, the
    path, the query or the fragment. *)
Fixpoint host_part (s : string) : string :=
  match s with
  | EmptyString => EmptyString
  | String c s' =>
      if (Ascii.eqb c ":" || Ascii.eqb c "/" || Ascii.eqb c "?" || Ascii.eqb c "#")%bool
      then EmptyString
      else String c (host_part s')
  end.

Definition url_scheme (url : string) : string := text_before "://" url.

Definition url_host (url : string) : string := host_part (text_after "://" url).

Definition select_proxy (url : string) (proxies : list (string * string)) : option string :=
  let scheme := url_scheme url in
  let host := url_host url in
  match dict_lookup (scheme ++ "://" ++ host)%string proxies with
  | Some p => Some p
  | None =>
      match dict_lookup scheme proxies with
      | Some p => Some p
      | None =>
          match dict_lookup ("all://" ++ host)%string proxies with
          | Some p => Some p
          | None => dict_lookup "all" proxies
          end
      end
  end.

(** C2 (the harvest-path validator, at a SOCKS candidate).  For the
    candidate ("1.2.3.4", 1080, "socks5"), [validate_proxy] sends its one
    request to http://httpbin.org/ip with the mapping
    [{"socks5": "socks5://1.2.3.4:1080"}]: the mapping has no key for the
    scheme of the target, so that no proxy is selected for the request, and
    yet an answer with status 200 gives the record with [is_working] true.
    The same holds of every socks4 or socks5 candidate; an http candidate
    has its proxy selected. *)
Theorem socks_probe_selects_no_proxy E w :
  let c := (AStr "1.2.3.4", 1080, "socks5") in
  let req :=
    mk_request "http://httpbin.org/ip" [("socks5", "socks5://1.2.3.4:1080")] 8 in
  let t := clock_reads w in
  sent (exec (validate_proxy E c) w) = sent w ++ [req] /\
  select_proxy (req_url req) (req_proxies req) = None /\
  (requests_get E (List.length (sent w)) req = Responded 200 ->
   value (validate_proxy E c) w =
   Ok (Some (mk_doc (AStr "1.2.3.4") 1080 "socks5" true
                    (round_ms E (clock E (S t) - clock E t))
                    (clock E (S (S t))) 200 "http://httpbin.org/ip"))) /\
  (forall i pt proto,
     proto = "socks4" \/ proto = "socks5" ->
     select_proxy VALIDATION_URL (req_proxies (probe_request VALIDATION_URL i pt proto))
     = None) /\
  (forall i pt,
     select_proxy VALIDATION_URL (req_proxies (probe_request VALIDATION_URL i pt "http"))
     = Some ("http://" ++ py_str i ++ ":" ++ str_of_int pt)%string).
Proof.
  intros c req t.
  assert (Hreq : probe_request VALIDATION_URL (AStr "1.2.3.4") 1080 "socks5" = req)
    by reflexivity.
  split; [|split; [|split; [|split]]].
  - unfold exec, c. rewrite validate_proxy_eq. cbv zeta. rewrite Hreq.
    destruct (requests_get E (List.length (sent w)) req) as [st|msg];
      [destruct (st =? 200)|]; reflexivity.
  - reflexivity.
  - intros Hout. unfold value, c. rewrite validate_proxy_eq. cbv zeta.
    rewrite Hreq, Hout. reflexivity.
  - intros i pt proto [->| ->]; reflexivity.
  - intros i pt. reflexivity.
Qed.

Definition result_name (doc : proxy_doc) : string :=
  (py_str (ip doc) ++ ":" ++ str_of_int (port doc))%string.

(** [test_proxy_against_endpoint] in one equation. *)
Lemma test_proxy_eq E doc url w :
  test_proxy_against_endpoint E doc url w =
  let req := probe_request url (ip doc) (port doc) (protocol doc) in
  let t := clock_reads w in
  match requests_get E (List.length (sent w)) req with
  | Responded status =>
      (Ok (mk_result (result_name doc) (protocol doc) (Some status)
                     (Some (round_ms E (clock E (S t) - clock E t))) None
                     (status =? 200) url (clock E (S (S t)))),
       mk_world (S (S (S t))) (sent w ++ [req]) (fetched w) (collection w))
  | Failed msg =>
      (Ok (mk_result (result_name doc) (protocol doc) None None (Some msg) false url
                     (clock E (S t))),
       mk_world (S (S t)) (sent w ++ [req]) (fetched w) (collection w))
  end.
Proof.
  unfold test_proxy_against_endpoint, try_catch, bind, now, http_get. simpl.
  destruct (requests_get E (List.length (sent w))
              (probe_request url (ip doc) (port doc) (protocol doc)));
    reflexivity.
Qed.

Lemma test_proxy_total E doc url w :
  exists r, value (test_proxy_against_endpoint E doc url) w = Ok r /\
            r_proxy r = result_name doc /\ r_endpoint r = url.
Proof.
  unfold value. rewrite test_proxy_eq. simpl.
  destruct (requests_get E (List.length (sent w))
              (probe_request url (ip doc) (port doc) (protocol doc)));
    eexists; simpl; repeat split.
Qed.

(** The loop of [test_all_proxies_against_endpoint] appends one result per
    proxy, in order. *)
Lemma test_loop_total E url docs acc w :
  exists rs,
    value (for_fold docs
             (fun results proxy =>
                r <- test_proxy_against_endpoint E proxy url ;;
                ret (results ++ [r])) acc) w = Ok (acc ++ rs) /\
    map r_proxy rs = map result_name docs.
Proof.
  revert acc w. induction docs as [|d docs IH]; intros acc w.
  - exists []. simpl. rewrite app_nil_r. split; reflexivity.
  - destruct (test_proxy_total E d url w) as (r & Hr & Hn & _).
    unfold value in *. simpl. unfold bind at 1. unfold bind at 1.
    destruct (test_proxy_against_endpoint E d url w) as [res w1].
    simpl in Hr. subst res. unfold ret at 1.
    destruct (IH (acc ++ [r]) w1) as (rs & Hrs & Hmap).
    exists (r :: rs). rewrite Hrs. split.
    + now rewrite <- app_assoc.
    + simpl. now rewrite Hn, Hmap.
Qed.

(** C3, as the code has it (the endpoint-test path reports every attempt).
    A probe that ends with an exception (timeout, connection error) gives
    a record with the message of the exception, [success] false, and
    neither status code nor response time.  A probe that is answered gives
    a record with the status code and the response time (the rounded time
    between the readings of the clock around the request) and no error
    message, [success] telling whether the status is 200.  The sweep
    returns one record per working proxy of the store, in their order. *)
Theorem endpoint_test_reports_every_attempt E url w :
  (forall doc,
     let req := probe_request url (ip doc) (port doc) (protocol doc) in
     let t := clock_reads w in
     value (test_proxy_against_endpoint E doc url) w =
     match requests_get E (List.length (sent w)) req with
     | Failed msg =>
         Ok (mk_result (result_name doc) (protocol doc) None None (Some msg) false
                       url (clock E (S t)))
     | Responded status =>
         Ok (mk_result (result_name doc) (protocol doc) (Some status)
                       (Some (round_ms E (clock E (S t) - clock E t))) None
                       (status =? 200) url (clock E (S (S t))))
     end) /\
  exists results,
    value (test_all_proxies_against_endpoint E url) w = Ok results /\
    List.length results = List.length (find_working (collection w)) /\
    map r_proxy results = map result_name (find_working (collection w)).
Proof.
  split.
  - intros doc req t. unfold value. rewrite test_proxy_eq. cbv zeta. fold req. fold t.
    destruct (requests_get E (List.length (sent w)) req); reflexivity.
  - unfold value, test_all_proxies_against_endpoint, bind at 1, read_collection.
    destruct (find_working (collection w)) as [|d ds] eqn:Hf.
    + exists []. repeat split.
    + destruct (test_loop_total E url (d :: ds) [] w) as (rs & Hrs & Hmap).
      exists rs. unfold value in Hrs. simpl in Hrs. split; [exact Hrs|].
      split; [|exact Hmap].
      rewrite <- (length_map r_proxy), Hmap, length_map. reflexivity.
Qed.

(** ** Deduplication *)

Lemma atom_eqb_refl a : atom_eqb a a = true.
Proof.
  destruct a as [|b|z|s]; simpl; auto using Bool.eqb_reflx, Z.eqb_refl, String.eqb_refl.
Qed.

Lemma atom_eqb_sym a b : atom_eqb a b = atom_eqb b a.
Proof.
  destruct a as [|x|x|x], b as [|y|y|y]; simpl; auto using Z.eqb_sym, String.eqb_sym.
  destruct x, y; reflexivity.
Qed.

Lemma candidate_eqb_refl c : candidate_eqb c c = true.
Proof.
  destruct c as [[i pt] pr]. simpl.
  now rewrite atom_eqb_refl, Z.eqb_refl, String.eqb_refl.
Qed.

Lemma candidate_eqb_sym a b : candidate_eqb a b = candidate_eqb b a.
Proof.
  destruct a as [[ia pa] ra], b as [[ib pb] rb]. simpl.
  now rewrite atom_eqb_sym, Z.eqb_sym, String.eqb_sym.
Qed.

(** No two elements of [s] are equal for Python. *)
Fixpoint pairwise_distinct (s : list candidate) : Prop :=
  match s with
  | [] => True
  | c :: s' => (forall x, In x s' -> candidate_eqb c x = false) /\ pairwise_distinct s'
  end.

Lemma pairwise_distinct_snoc s c :
  pairwise_distinct s -> (forall x, In x s -> candidate_eqb x c = false) ->
  pairwise_distinct (s ++ [c]).
Proof.
  induction s as [|d s IH]; simpl; intros Hs Hc.
  - split; [intros x []|exact I].
  - destruct Hs as [Hd Hs]. split.
    + intros x Hx. apply in_app_or in Hx as [Hx|[<-|[]]]; auto.
    + apply IH; auto.
Qed.

Lemma set_add_distinct s c : pairwise_distinct s -> pairwise_distinct (set_add s c).
Proof.
  unfold set_add. intros Hs.
  destruct (existsb (candidate_eqb c) s) eqn:Hex; [assumption|].
  apply pairwise_distinct_snoc; [assumption|].
  intros x Hx. rewrite candidate_eqb_sym.
  destruct (candidate_eqb c x) eqn:Hcx; [|reflexivity].
  assert (existsb (candidate_eqb c) s = true) by (apply existsb_exists; eauto).
  congruence.
Qed.

Lemma set_add_keeps s c x : In x s -> In x (set_add s c).
Proof.
  unfold set_add. destruct (existsb (candidate_eqb c) s); auto using in_or_app.
Qed.

Lemma set_add_holds s c : exists c', In c' (set_add s c) /\ candidate_eqb c c' = true.
Proof.
  unfold set_add. destruct (existsb (candidate_eqb c) s) eqn:Hex.
  - apply existsb_exists in Hex. exact Hex.
  - exists c. split; [apply in_or_app; right; now left|apply candidate_eqb_refl].
Qed.

Lemma set_add_origin s c x : In x (set_add s c) -> In x s \/ x = c.
Proof.
  unfold set_add. destruct (existsb (candidate_eqb c) s); auto.
  intros H. apply in_app_or in H as [H|[H|[]]]; auto.
Qed.

(** One turn of the set comprehension of [harvest_all]. *)
Definition add_tuple (s : list candidate) (p : raw_candidate) : result (list candidate) :=
  let '(i, pt, pr) := p in
  rbind (hash_key i) (fun a => Ok (set_add s (a, pt, pr))).

Lemma unique_proxies_fold proxies :
  unique_proxies proxies = rfold add_tuple proxies [].
Proof. reflexivity. Qed.

Lemma add_tuple_fold proxies : forall acc s,
  rfold add_tuple proxies acc = Ok s ->
  (pairwise_distinct acc -> pairwise_distinct s) /\
  (forall x, In x acc -> In x s) /\
  (forall i pt pr, In (i, pt, pr) proxies ->
     exists a c, hash_key i = Ok a /\ In c s /\ candidate_eqb (a, pt, pr) c = true) /\
  (forall c, In c s ->
     In c acc \/ exists i, In (i, snd (fst c), snd c) proxies /\ hash_key i = Ok (fst (fst c))).
Proof.
  induction proxies as [|[[i pt] pr] proxies IH]; intros acc s H; simpl in H.
  - inversion H; subst. repeat split; auto. intros ? ? ? [].
  - destruct (hash_key i) as [a|e] eqn:Hh; simpl in H; [|discriminate].
    destruct (IH _ _ H) as (Hd & Hk & Hc & Ho).
    split; [|split; [|split]].
    + intros Hacc. apply Hd. now apply set_add_distinct.
    + intros x Hx. apply Hk. now apply set_add_keeps.
    + intros i' pt' pr' [Heq|Hin].
      * inversion Heq; subst.
        destruct (set_add_holds acc (a, pt', pr')) as (c' & Hin' & Heqb).
        exists a, c'. auto.
      * now apply Hc.
    + intros c Hin. destruct (Ho c Hin) as [Hacc|(i' & Hi' & Hh')].
      * apply set_add_origin in Hacc as [Hacc| ->]; [now left|].
        right. exists i. simpl. auto.
      * right. exists i'. simpl. auto.
Qed.

Lemma merge_results_concat results : merge_results results = List.concat results.
Proof.
  unfold merge_results.
  assert (H : forall acc,
             fold_left (fun proxies (r : list raw_candidate) =>
                          match r with [] => proxies | _ => proxies ++ r end)
                       results acc = acc ++ List.concat results).
  { induction results as [|r results IH]; intros acc; simpl.
    - now rewrite app_nil_r.
    - rewrite IH. destruct r; [reflexivity|now rewrite app_assoc]. }
  apply (H []).
Qed.

(** ** The pattern and its matches *)

(** The strings that a pattern denotes. *)
Fixpoint lang (r : regex) (s : list ascii) : Prop :=
  match r with
  | Eps => s = []
  | Digit => exists c, s = [c] /\ is_digit c = true
  | Lit d => s = [d]
  | Seq a b => exists s1 s2, s = s1 ++ s2 /\ lang a s1 /\ lang b s2
  | Opt a => s = [] \/ lang a s
  end.

(** What the matcher consumes is in the language of the pattern. *)
Lemma rmatch_sound r : forall s k out,
  rmatch r s k = Some out ->
  exists pre rest, s = pre ++ rest /\ lang r pre /\ k rest = Some out.
Proof.
  induction r as [| |d|a IHa b IHb|a IHa]; intros s k out H; simpl in H.
  - exists [], s. simpl. auto.
  - destruct s as [|c s]; [discriminate|].
    destruct (is_digit c) eqn:Hc; [|discriminate].
    exists [c], s. simpl. eauto.
  - destruct s as [|c s]; [discriminate|].
    destruct (Ascii.eqb_spec c d) as [->|]; [|discriminate].
    exists [d], s. simpl. auto.
  - apply IHa in H as (p1 & r1 & -> & H1 & H).
    apply IHb in H as (p2 & r2 & -> & H2 & H).
    exists (p1 ++ p2), r2. rewrite app_assoc. simpl. eauto 7.
  - destruct (rmatch a s k) as [out'|] eqn:Ha.
    + inversion H; subst out'. apply IHa in Ha as (p & r & -> & Hp & Hk).
      exists p, r. simpl. auto.
    + exists [], s. simpl. auto.
Qed.

Lemma match_length_sound r s n :
  match_length r s = Some n -> lang r (firstn n s) /\ (n <= List.length s)%nat.
Proof.
  unfold match_length. destruct (rmatch r s Some) as [rest|] eqn:H; [|discriminate].
  intros Hn. inversion Hn; subst n. clear Hn.
  apply rmatch_sound in H as (pre & rest' & -> & Hl & Hk).
  inversion Hk; subst rest'. rewrite length_app.
  replace (List.length pre + List.length rest - List.length rest)%nat
    with (List.length pre + 0)%nat by lia.
  rewrite firstn_app_2. simpl. rewrite app_nil_r. split; [assumption|lia].
Qed.

Lemma findall_from_lang r s : forall skip,
  Forall (lang r) (findall_from r skip s).
Proof.
  induction s as [|c s IH]; intros skip; simpl; [constructor|].
  destruct skip as [|n]; [|apply IH].
  destruct (match_length r (c :: s)) as [[|n]|] eqn:Hm; try apply IH.
  constructor; [|apply IH].
  apply match_length_sound in Hm. tauto.
Qed.

(** Properties of every character, and lengths, through repetition. *)
Section Repetition.

Variable a : regex.
Variable P : ascii -> Prop.
Hypothesis a_chars : forall s, lang a s -> Forall P s.

Lemma exactly_chars n : forall s, lang (exactly n a) s -> Forall P s.
Proof.
  induction n as [|n IH]; simpl; intros s H.
  - subst. constructor.
  - destruct H as (s1 & s2 & -> & H1 & H2). apply Forall_app. auto.
Qed.

Lemma at_most_chars n : forall s, lang (at_most n a) s -> Forall P s.
Proof.
  induction n as [|n IH]; simpl; intros s H.
  - subst. constructor.
  - destruct H as [->|(s1 & s2 & -> & H1 & H2)]; [constructor|].
    apply Forall_app. auto.
Qed.

Lemma repeat_range_chars lo hi s : lang (repeat_range a lo hi) s -> Forall P s.
Proof.
  unfold repeat_range. simpl. intros (s1 & s2 & -> & H1 & H2).
  apply Forall_app. eauto using exactly_chars, at_most_chars.
Qed.

Hypothesis a_single : forall s, lang a s -> List.length s = 1%nat.

Lemma exactly_length n : forall s, lang (exactly n a) s -> List.length s = n.
Proof.
  induction n as [|n IH]; simpl; intros s H.
  - now subst.
  - destruct H as (s1 & s2 & -> & H1 & H2). rewrite length_app.
    rewrite (a_single _ H1), (IH _ H2). reflexivity.
Qed.

Lemma at_most_length n : forall s, lang (at_most n a) s -> (List.length s <= n)%nat.
Proof.
  induction n as [|n IH]; simpl; intros s H.
  - subst. simpl. lia.
  - destruct H as [->|(s1 & s2 & -> & H1 & H2)]; [simpl; lia|].
    rewrite length_app, (a_single _ H1). specialize (IH _ H2). lia.
Qed.

Lemma repeat_range_length lo hi s :
  lang (repeat_range a lo hi) s ->
  (lo <= List.length s <= lo + (hi - lo))%nat.
Proof.
  unfold repeat_range. simpl. intros (s1 & s2 & -> & H1 & H2).
  rewrite length_app, (exactly_length _ _ H1).
  pose proof (at_most_length _ _ H2). lia.
Qed.

End Repetition.

Definition digits (s : list ascii) : Prop := Forall (fun c => is_digit c = true) s.

Definition not_colon (c : ascii) : Prop := Ascii.eqb c ":" = false.

Lemma digit_not_colon c : is_digit c = true -> not_colon c.
Proof.
  unfold not_colon. intros H. destruct (Ascii.eqb_spec c ":"); [subst; discriminate|reflexivity].
Qed.

Lemma lang_Digit_chars s : lang Digit s -> digits s.
Proof. intros (c & -> & Hc). repeat constructor. exact Hc. Qed.

Lemma lang_Digit_single s : lang Digit s -> List.length s = 1%nat.
Proof. intros (c & -> & Hc). reflexivity. Qed.

Lemma digits_not_colon s : digits s -> Forall not_colon s.
Proof. apply Forall_impl. exact digit_not_colon. Qed.

(** A match of [IP_PORT_REGEX]: a part without colon, a colon, and two to
    five digits. *)
Lemma lang_IP_PORT m :
  lang IP_PORT_REGEX m ->
  exists i p, m = i ++ ":"%char :: p /\ Forall not_colon i /\ digits p /\
              (2 <= List.length p <= 5)%nat.
Proof.
  unfold IP_PORT_REGEX. cbn [lang].
  intros (s1 & s2 & -> & H1 & s3 & s4 & -> & H3 & s5 & p & -> & -> & Hp).
  exists (s1 ++ s3), p. rewrite <- app_assoc. split; [reflexivity|].
  split; [|split].
  - apply Forall_app. split.
    + revert H1. apply repeat_range_chars.
      cbn [lang]. intros s (o & d & -> & Ho & ->).
      apply Forall_app. split; [|repeat constructor].
      apply digits_not_colon. revert Ho. apply repeat_range_chars, lang_Digit_chars.
    + apply digits_not_colon. revert H3. apply repeat_range_chars, lang_Digit_chars.
  - revert Hp. apply repeat_range_chars, lang_Digit_chars.
  - apply (repeat_range_length Digit lang_Digit_single) in Hp. simpl in Hp. lia.
Qed.

(** ** Splitting and reading a match *)

Lemma split_on_no_sep sep s :
  Forall (fun c => Ascii.eqb c sep = false) s -> split_on sep s = [s].
Proof.
  induction 1 as [|c s Hc _ IH]; simpl; [reflexivity|].
  now rewrite Hc, IH.
Qed.

Lemma split_on_app sep a b :
  Forall (fun c => Ascii.eqb c sep = false) a ->
  split_on sep (a ++ sep :: b) = a :: split_on sep b.
Proof.
  induction 1 as [|c s Hc _ IH]; simpl.
  - now rewrite Ascii.eqb_refl.
  - now rewrite Hc, IH.
Qed.

Lemma digit_not_space c : is_digit c = true -> is_space c = false.
Proof.
  unfold is_digit, is_space. cbv zeta. intros H.
  apply andb_true_iff in H as [H1 H2].
  apply Nat.leb_le in H1, H2.
  apply orb_false_iff. split.
  - apply andb_false_iff. right. apply Nat.leb_gt. lia.
  - apply Nat.eqb_neq. lia.
Qed.

Lemma lstrip_digits s : digits s -> lstrip s = s.
Proof.
  destruct 1 as [|c s Hc _]; simpl; [reflexivity|].
  now rewrite (digit_not_space _ Hc).
Qed.

Lemma strip_digits s : digits s -> strip s = s.
Proof.
  intros H. unfold strip. rewrite (lstrip_digits _ H).
  rewrite lstrip_digits by (now apply Forall_rev).
  apply rev_involutive.
Qed.

Lemma literal_digits_digits s : digits s -> literal_digits true s = Some s.
Proof.
  induction 1 as [|c s Hc _ IH]; simpl; [reflexivity|].
  now rewrite Hc, IH.
Qed.

(** [int] of a run of digits is its decimal value, up to the limit on the
    number of digits. *)
Lemma int_of_chars_digits s :
  digits s -> s <> [] -> (List.length s <= MAX_STR_DIGITS)%nat ->
  int_of_chars s = Ok (digits_val s).
Proof.
  intros H Hne Hlen. unfold int_of_chars. rewrite (strip_digits _ H).
  destruct H as [|c s Hc Hs]; [congruence|].
  destruct (Ascii.eqb_spec c "-") as [->|_]; [discriminate|].
  destruct (Ascii.eqb_spec c "+") as [->|_]; [discriminate|].
  cbn [literal_digits]. rewrite Hc, (literal_digits_digits _ Hs).
  cbn [option_map].
  assert (Hlt : (MAX_STR_DIGITS <? List.length (c :: s))%nat = false)
    by (apply Nat.ltb_ge; exact Hlen).
  rewrite Hlt. reflexivity.
Qed.

Lemma digit_val_range c : is_digit c = true -> 0 <= digit_val c <= 9.
Proof.
  unfold is_digit, digit_val. cbv zeta. intros H.
  apply andb_true_iff in H as [H1 H2].
  apply Nat.leb_le in H1, H2. lia.
Qed.

Lemma digits_val_range s :
  digits s -> 0 <= digits_val s < 10 ^ Z.of_nat (List.length s).
Proof.
  unfold digits_val. intros H.
  assert (G : forall acc, 0 <= acc ->
            0 <= fold_left (fun acc c => 10 * acc + digit_val c) s acc
              < (acc + 1) * 10 ^ Z.of_nat (List.length s)).
  { induction H as [|c s Hc _ IH]; intros acc Hacc.
    - simpl. lia.
    - pose proof (digit_val_range _ Hc) as Hd.
      cbn [fold_left List.length]. rewrite Nat2Z.inj_succ, Z.pow_succ_r by lia.
      specialize (IH (10 * acc + digit_val c) ltac:(lia)).
      assert (0 < 10 ^ Z.of_nat (List.length s)) by (apply Z.pow_pos_nonneg; lia).
      nia. }
  specialize (G 0 ltac:(lia)). lia.
Qed.

(** The part of a match before its first colon, and the part after it. *)
Fixpoint before_colon (m : list ascii) : list ascii :=
  match m with
  | [] => []
  | c :: m' => if Ascii.eqb c ":" then [] else c :: before_colon m'
  end.

Fixpoint after_colon (m : list ascii) : list ascii :=
  match m with
  | [] => []
  | c :: m' => if Ascii.eqb c ":" then m' else after_colon m'
  end.

Lemma before_colon_app i p :
  Forall not_colon i -> before_colon (i ++ ":"%char :: p) = i.
Proof.
  induction 1 as [|c s Hc _ IH]; simpl; [reflexivity|].
  unfold not_colon in Hc. now rewrite Hc, IH.
Qed.

Lemma after_colon_app i p :
  Forall not_colon i -> after_colon (i ++ ":"%char :: p) = p.
Proof.
  induction 1 as [|c s Hc _ IH]; simpl; [reflexivity|].
  unfold not_colon in Hc. now rewrite Hc, IH.
Qed.

(** The tuple that [harvest_source] makes of a match. *)
Definition tuple_of_match (hint : string) (m : list ascii) : raw_candidate :=
  (JStr (string_of_list_ascii (before_colon m)), digits_val (after_colon m), hint).

Lemma harvest_text_match_ok hint results m :
  lang IP_PORT_REGEX m ->
  harvest_text_match hint results m = Ok (results ++ [tuple_of_match hint m]) /\
  0 <= digits_val (after_colon m) <= 99999.
Proof.
  intros H. apply lang_IP_PORT in H as (i & p & -> & Hi & Hp & Hlen).
  unfold harvest_text_match, tuple_of_match.
  rewrite split_on_app by exact Hi.
  rewrite split_on_no_sep by (now apply digits_not_colon).
  rewrite int_of_chars_digits;
    [|assumption|destruct p; simpl in *; [lia|congruence]|unfold MAX_STR_DIGITS; lia].
  rewrite before_colon_app, after_colon_app by assumption.
  split; [reflexivity|].
  pose proof (digits_val_range _ Hp) as Hr.
  assert (10 ^ Z.of_nat (List.length p) <= 10 ^ 5)
    by (apply Z.pow_le_mono_r; lia).
  change (10 ^ 5) with 100000 in *. lia.
Qed.

Lemma harvest_text_fold hint ms : forall results,
  Forall (lang IP_PORT_REGEX) ms ->
  rfold (harvest_text_match hint) ms results =
  Ok (results ++ map (tuple_of_match hint) ms).
Proof.
  induction ms as [|m ms IH]; intros results H; simpl.
  - now rewrite app_nil_r.
  - inversion H; subst.
    destruct (harvest_text_match_ok hint results m) as [-> _]; [assumption|].
    simpl. rewrite IH by assumption. now rewrite <- app_assoc.
Qed.

(** A text payload never raises: its tuples are those of the matches. *)
Lemma harvest_payload_text name text :
  harvest_payload name (JStr text) =
  Ok (map (tuple_of_match (proto_hint name)) (findall IP_PORT_REGEX text)).
Proof.
  unfold harvest_payload. rewrite harvest_text_fold; [reflexivity|].
  apply findall_from_lang.
Qed.

(** ** Harvesting *)

(** What [fetch] makes of the reply of the session. *)
Definition payload_of (r : fetch_reply) : option json :=
  match r with
  | FetchFailed _ => None
  | Fetched resp =>
      if resp_status resp =? 200 then
        if contains "json" (content_type resp) then
          match resp_json resp with
          | Ok j => Some j
          | Raise _ => None
          end
        else Some (JStr (resp_text resp))
      else None
  end.

(** What [harvest_source] makes of it for the source [name]. *)
Definition contribution (name : string) (r : fetch_reply) : result (list raw_candidate) :=
  match payload_of r with
  | None => Ok []
  | Some raw => if truthy raw then harvest_payload name raw else Ok []
  end.

(** The contributions of the sources [srcs], the first of which gets the
    [n]-th reply of the session. *)
Fixpoint contributions (E : env) (n : nat) (srcs : list (string * string))
  : result (list (list raw_candidate)) :=
  match srcs with
  | [] => Ok []
  | src :: rest =>
      rbind (contribution (fst src) (session_get E n (snd src))) (fun r =>
      rbind (contributions E (S n) rest) (fun rs => Ok (r :: rs)))
  end.

Definition after_fetch (url : string) (w : world) : world :=
  mk_world (clock_reads w) (sent w) (fetched w ++ [url]) (collection w).

Lemma fetch_eq E url w :
  fetch E url w =
  (Ok (payload_of (session_get E (List.length (fetched w)) url)), after_fetch url w).
Proof.
  unfold fetch, try_catch, bind, session_fetch, payload_of, after_fetch.
  destruct (session_get E (List.length (fetched w)) url) as [resp|msg]; [|reflexivity].
  destruct (resp_status resp =? 200); [|reflexivity].
  destruct (contains "json" (content_type resp)); [|reflexivity].
  unfold lift. destruct (resp_json resp); reflexivity.
Qed.

Lemma harvest_source_eq E name url w :
  harvest_source E name url w =
  (contribution name (session_get E (List.length (fetched w)) url), after_fetch url w).
Proof.
  unfold harvest_source, bind, contribution. rewrite fetch_eq.
  destruct (payload_of (session_get E (List.length (fetched w)) url)) as [raw|];
    [|reflexivity].
  destruct (truthy raw); reflexivity.
Qed.

Lemma harvest_loop_eq E srcs : forall acc w,
  value (for_fold srcs
           (fun results src =>
              r <- harvest_source E (fst src) (snd src) ;;
              ret (results ++ [r])) acc) w =
  rbind (contributions E (List.length (fetched w)) srcs) (fun rs => Ok (acc ++ rs)).
Proof.
  induction srcs as [|src srcs IH]; intros acc w.
  - simpl. now rewrite app_nil_r.
  - unfold value in *. simpl. unfold bind at 1. unfold bind at 1.
    rewrite harvest_source_eq.
    destruct (contribution (fst src) (session_get E (List.length (fetched w)) (snd src)))
      as [r|e]; [|reflexivity].
    unfold ret at 1. rewrite IH. simpl. rewrite length_app, Nat.add_1_r.
    destruct (contributions E (S (List.length (fetched w))) srcs) as [rs|e];
      [|reflexivity].
    simpl. now rewrite <- app_assoc.
Qed.

(** [harvest_all] is the set of the merged contributions of the sources,
    or the first exception among them. *)
Lemma harvest_all_eq E w :
  value (harvest_all E) w =
  rbind (contributions E (List.length (fetched w)) SOURCES)
        (fun rs => unique_proxies (merge_results rs)).
Proof.
  pose proof (harvest_loop_eq E SOURCES [] w) as H.
  unfold value, harvest_all in *. unfold bind at 1.
  match goal with
  | |- context [for_fold SOURCES ?b [] w] =>
      destruct (for_fold SOURCES b [] w) as [r w1]
  end.
  cbn [fst] in H. subst r.
  destruct (contributions E (List.length (fetched w)) SOURCES) as [rs|e];
    reflexivity.
Qed.

(** A source that failed, or sent text. *)
Definition text_or_failed (r : fetch_reply) : Prop :=
  match payload_of r with
  | None | Some (JStr _) => True
  | Some _ => False
  end.

Definition hashable_ip (p : raw_candidate) : Prop :=
  exists a, hash_key (fst (fst p)) = Ok a.

Lemma contribution_text name r :
  text_or_failed r ->
  exists l, contribution name r = Ok l /\ Forall hashable_ip l.
Proof.
  unfold text_or_failed, contribution.
  destruct (payload_of r) as [[| | |text| |]|]; try contradiction; intros _.
  - destruct (truthy (JStr text)); [|exists []; auto].
    rewrite harvest_payload_text. eexists. split; [reflexivity|].
    apply Forall_forall. intros p Hp. apply in_map_iff in Hp as (m & <- & _).
    eexists. reflexivity.
  - exists []. auto.
Qed.

Lemma contributions_text E srcs : forall n,
  (forall k url, text_or_failed (session_get E k url)) ->
  exists rs, contributions E n srcs = Ok rs /\ Forall (Forall hashable_ip) rs.
Proof.
  induction srcs as [|src srcs IH]; intros n H; simpl.
  - exists []. auto.
  - destruct (contribution_text (fst src) _ (H n (snd src))) as (l & -> & Hl).
    destruct (IH (S n) H) as (rs & -> & Hrs). simpl. eauto.
Qed.

Lemma add_tuple_fold_ok proxies : forall acc,
  Forall hashable_ip proxies -> exists s, rfold add_tuple proxies acc = Ok s.
Proof.
  induction proxies as [|[[i pt] pr] proxies IH]; intros acc H; simpl.
  - eauto.
  - inversion H as [|? ? [a Ha] Hrest]; subst. simpl in Ha. rewrite Ha. simpl.
    now apply IH.
Qed.

(** C5 (deduplication).  The set that [harvest_all] builds from the merged
    lists of the sources has no two tuples with equal (ip, port, protocol);
    it holds a tuple for each harvested one, and only harvested ones; so
    the list that [harvest_all] returns has no two equal tuples.  For
    source A giving [("1.2.3.4",80,"http")] and source B giving
    [("1.2.3.4",80,"http"), ("5.6.7.8",1080,"socks5")] it has exactly the
    2 entries. *)
Theorem merged_candidates_are_unique :
  (forall results s,
     unique_proxies (merge_results results) = Ok s ->
     pairwise_distinct s /\ NoDup s /\
     (forall r i pt pr, In r results -> In (i, pt, pr) r ->
        exists a c, hash_key i = Ok a /\ In c s /\ candidate_eqb (a, pt, pr) c = true) /\
     (forall a pt pr, In (a, pt, pr) s ->
        exists r i, In r results /\ In (i, pt, pr) r /\ hash_key i = Ok a)) /\
  (forall E w s, value (harvest_all E) w = Ok s -> pairwise_distinct s) /\
  (let source_a := [(JStr "1.2.3.4", 80, "http")] in
   let source_b := [(JStr "1.2.3.4", 80, "http"); (JStr "5.6.7.8", 1080, "socks5")] in
   unique_proxies (merge_results [source_a; source_b]) =
   Ok [(AStr "1.2.3.4", 80, "http"); (AStr "5.6.7.8", 1080, "socks5")] /\
   forall s, unique_proxies (merge_results [source_a; source_b]) = Ok s ->
             List.length s = 2%nat).
Proof.
  split.
  - intros results s H. rewrite merge_results_concat, unique_proxies_fold in H.
    destruct (add_tuple_fold _ _ _ H) as (Hd & _ & Hc & Ho).
    assert (Hpd : pairwise_distinct s) by (apply Hd; exact I).
    split; [exact Hpd|]. split; [|split].
    + clear -Hpd. induction s as [|c s IH]; [constructor|].
      destruct Hpd as [Hc Hs]. constructor; auto.
      intros Hin. specialize (Hc c Hin). rewrite candidate_eqb_refl in Hc. discriminate.
    + intros r i pt pr Hr Hin. apply Hc. apply in_concat. eauto.
    + intros a pt pr Hin. destruct (Ho _ Hin) as [[]|(i & Hi & Hh)].
      simpl in Hi, Hh. apply in_concat in Hi as (r & Hr & Hi). eauto.
  - split.
    + intros E w s H. rewrite harvest_all_eq in H.
      destruct (contributions E (List.length (fetched w)) SOURCES) as [rs|e];
        [|discriminate].
      cbn [rbind] in H. rewrite merge_results_concat, unique_proxies_fold in H.
      apply add_tuple_fold in H as (Hd & _). apply Hd. exact I.
    + split; [reflexivity|]. intros s H. vm_compute in H. inversion H. reflexivity.
Qed.

Definition newline : string := String (ascii_of_nat 10) EmptyString.

(** The text ["1.2.3.4:8080\n5.6.7.8:3128\n"]. *)
Definition two_line_blob : string :=
  ("1.2.3.4:8080" ++ newline ++ "5.6.7.8:3128" ++ newline)%string.


(** C7, as the code has it (a failing source does not abort the harvest).
    A source whose fetch raises, or is answered with another status than
    200, contributes no candidate.  The harvest is the set of the merged
    contributions of all the sources, so that an empty contribution leaves
    those of the others.  A text payload never raises, whatever it holds:
    what does not match the pattern is skipped.  Hence when every source
    fails or sends text, [harvest_all] returns. *)
Theorem failing_source_does_not_abort :
  (forall E name url w,
     match session_get E (List.length (fetched w)) url with
     | FetchFailed _ => value (harvest_source E name url) w = Ok []
     | Fetched resp =>
         resp_status resp <> 200 -> value (harvest_source E name url) w = Ok []
     end) /\
  (forall E w,
     value (harvest_all E) w =
     rbind (contributions E (List.length (fetched w)) SOURCES)
           (fun rs => unique_proxies (merge_results rs))) /\
  (forall rs1 rs2, merge_results (rs1 ++ [] :: rs2) = merge_results (rs1 ++ rs2)) /\
  (forall name text, exists l, harvest_payload name (JStr text) = Ok l) /\
  (forall E w,
     (forall n url, text_or_failed (session_get E n url)) ->
     exists s, value (harvest_all E) w = Ok s).
Proof.
  split; [|split; [|split; [|split]]].
  - intros E name url w. unfold value. rewrite harvest_source_eq. cbn [fst].
    unfold contribution, payload_of.
    destruct (session_get E (List.length (fetched w)) url) as [resp|msg];
      [|reflexivity].
    intros Hst. apply Z.eqb_neq in Hst. now rewrite Hst.
  - exact harvest_all_eq.
  - intros rs1 rs2. rewrite !merge_results_concat, !concat_app. reflexivity.
  - intros name text. rewrite harvest_payload_text. eauto.
  - intros E w H. rewrite harvest_all_eq.
    destruct (contributions_text E SOURCES (List.length (fetched w)) H)
      as (rs & -> & Hrs).
    cbn [rbind]. rewrite merge_results_concat, unique_proxies_fold.
    apply add_tuple_fold_ok. apply Forall_concat. exact Hrs.
Qed.

Definition port_of (c : raw_candidate) : Z := snd (fst c).

(** C9, as the code has it (ports of harvested candidates).  A candidate
    parsed from a text list has a port between 0 and 99999: the pattern
    takes two to five digits and nothing checks their value.  The port of
    a geonode entry is the integer of its [port] field, whatever it is. *)
Theorem harvested_port_bounds :
  (forall name text,
     exists cands,
       harvest_payload name (JStr text) = Ok cands /\
       Forall (fun c => 0 <= port_of c <= 99999) cands) /\
  (forall host z,
     harvest_payload "geonode"
       (JObj [("data",
               JArr [JObj [("ip", JStr host); ("port", JInt z);
                           ("protocols", JArr [JStr "http"])]])]) =
     Ok [(JStr host, z, "http")]).
Proof.
  split.
  - intros name text. rewrite harvest_payload_text. eexists. split; [reflexivity|].
    apply Forall_forall. intros c Hc.
    apply in_map_iff in Hc as (m & <- & Hm).
    pose proof (findall_from_lang IP_PORT_REGEX (list_ascii_of_string text) 0) as Hall.
    rewrite Forall_forall in Hall. specialize (Hall m Hm).
    apply (harvest_text_match_ok (proto_hint name) []) in Hall as [_ Hr].
    exact Hr.
  - intros host z. reflexivity.
Qed.

(** ** Full sweeps *)

Lemma store_proxy_sent E doc w :
  value (store_proxy E doc) w = Ok tt /\
  sent (exec (store_proxy E doc) w) = sent w.
Proof.
  unfold value, exec. rewrite store_proxy_eq.
  destruct (existsb (same_key (key_of doc)) (collection w)); split; reflexivity.
Qed.

Lemma bind_ok {A B} (m : M A) (f : A -> M B) w a w1 :
  m w = (Ok a, w1) -> bind m f w = f a w1.
Proof. unfold bind. now intros ->. Qed.

(** One turn of the harvest sweep: one request, and no exception. *)
Lemma validate_and_store_one E p w :
  exists w1,
    (doc <- validate_proxy E p ;;
     match doc with
     | Some d => store_proxy E d
     | None => ret tt
     end) w = (Ok tt, w1) /\
    List.length (sent w1) = S (List.length (sent w)).
Proof.
  destruct p as [[i pt] proto].
  assert (Hv : exists doc w1,
             validate_proxy E (i, pt, proto) w = (Ok doc, w1) /\
             List.length (sent w1) = S (List.length (sent w)) ).
  { rewrite validate_proxy_eq. cbv zeta.
    destruct (requests_get E (List.length (sent w))
                (probe_request VALIDATION_URL i pt proto)) as [st|msg];
      [destruct (st =? 200)|];
      eexists; eexists; (split; [reflexivity|]);
      simpl; rewrite length_app; simpl; lia. }
  destruct Hv as (doc & w1 & Hv & Hsent).
  rewrite (bind_ok _ _ _ _ _ Hv). destruct doc as [d|].
  - pose proof (store_proxy_sent E d w1) as (Hval & Hs).
    unfold value, exec in Hval, Hs.
    destruct (store_proxy E d w1) as [r w2]. cbn [fst snd] in Hval, Hs. subst r.
    exists w2. split; [reflexivity|]. now rewrite Hs.
  - exists w1. split; [reflexivity|assumption].
Qed.


(** * Concrete runs *)

(** Readings of the clock, in microseconds: 250.4 ms apart. *)
Definition sample_clock (n : nat) : Z := 1000000 + 250400 * Z.of_nat n.

(** A duration in microseconds to the nearest millisecond. *)
Definition round_nearest (d : Z) : Z := (d + 500) / 1000.

(** A world where every proxy answers 200 and no source can be reached. *)
Definition sample_env : env :=
  mk_env sample_clock (fun _ _ => Responded 200) (fun _ _ => FetchFailed "unreachable")
         round_nearest.

(** A world where every proxy answers 503. *)
Definition busy_env : env :=
  mk_env sample_clock (fun _ _ => Responded 503) (fun _ _ => FetchFailed "unreachable")
         round_nearest.

Definition empty_world : world := mk_world 0 [] [] [].

Definition first_probe : proxy_doc :=
  mk_doc (AStr "1.2.3.4") 8080 "http" true 120 500000 200 VALIDATION_URL.

Definition second_probe : proxy_doc :=
  mk_doc (AStr "1.2.3.4") 8080 "http" true 95 900000 200 VALIDATION_URL.

Definition stored_world : world := mk_world 0 [] [] [first_probe].

Definition text_response (text : string) : http_response :=
  mk_response 200 "text/plain" text (Raise ValueError).

(** A world where every source sends the same two lines. *)
Definition text_env : env :=
  mk_env sample_clock (fun _ _ => Failed "timed out")
         (fun _ _ => Fetched (text_response two_line_blob))
         round_nearest.

(** A geonode payload with an entry whose port is not a number. *)
Definition bad_geonode : json :=
  JObj [("data",
         JArr [JObj [("ip", JStr "1.2.3.4"); ("port", JStr "n/a");
                     ("protocols", JArr [JStr "http"])]])].

(** A world where the text sources send two lines and geonode sends
    [bad_geonode]. *)
Definition bad_geonode_env : env :=
  mk_env sample_clock (fun _ _ => Failed "timed out")
         (fun _ url =>
            if contains "geonode" url
            then Fetched (mk_response 200 "application/json" "" (Ok bad_geonode))
            else Fetched (text_response two_line_blob))
         round_nearest.

(** *** The store *)






Lemma store_proxy_duplicate_witness :
  value (store_proxy sample_env second_probe) stored_world = Ok tt /\
  collection (exec (store_proxy sample_env second_probe) stored_world) =
  [mk_doc (AStr "1.2.3.4") 8080 "http" true 95 1000000 200 VALIDATION_URL].
Proof.
  split.
  - apply (store_proxy_duplicate_updates_two_fields sample_env second_probe stored_world).
    simpl. left. reflexivity.
  - reflexivity.
Defined.

Lemma working_set_witness :
  exists row',
    In row' (find_working
               (collection
                  (run_operations busy_env
                     [OpHarvest; OpTestEndpoint TARGET_ENDPOINT; OpStats; OpHarvest]
                     stored_world))) /\
    key_of row' = key_of first_probe.
Proof.
  apply (working_set_is_monotone busy_env
           [OpHarvest; OpTestEndpoint TARGET_ENDPOINT; OpStats; OpHarvest]
           stored_world).
  - simpl. left. reflexivity.
  - reflexivity.
Defined.

(** *** Probes *)

Lemma validate_proxy_witness :
  value (validate_proxy sample_env (AStr "1.2.3.4", 8080, "http")) empty_world =
  Ok (Some (mk_doc (AStr "1.2.3.4") 8080 "http" true 250 1500800 200 VALIDATION_URL)) /\
  value (validate_proxy busy_env (AStr "1.2.3.4", 8080, "http")) empty_world = Ok None.
Proof.
  split.
  - apply (validate_proxy_outcome sample_env (AStr "1.2.3.4") 8080 "http" empty_world).
    reflexivity.
  - apply (validate_proxy_outcome busy_env (AStr "1.2.3.4") 8080 "http" empty_world).
    simpl. discriminate.
Defined.

Lemma socks_probe_witness :
  value (validate_proxy sample_env (AStr "1.2.3.4", 1080, "socks5")) empty_world =
  Ok (Some (mk_doc (AStr "1.2.3.4") 1080 "socks5" true 250 1500800 200
                   "http://httpbin.org/ip")).
Proof.
  apply (socks_probe_selects_no_proxy sample_env empty_world).
  reflexivity.
Defined.

(** C3 as the specification words it: a probe that does not end with
    status 200 gives a record with an error message, [success] false and
    no response time. *)
Definition endpoint_failure_has_error_and_no_time : Prop :=
  forall E doc url w r,
    requests_get E (List.length (sent w))
      (probe_request url (ip doc) (port doc) (protocol doc)) <> Responded 200 ->
    value (test_proxy_against_endpoint E doc url) w = Ok r ->
    r_success r = false /\ (exists msg, r_error r = Some msg) /\
    r_response_time r = None.

(** A proxy that answers 503: the record has a response time and no error
    message. *)
Lemma endpoint_non_200_has_time_and_no_error : ~ endpoint_failure_has_error_and_no_time.
Proof.
  intros H.
  destruct (H busy_env first_probe TARGET_ENDPOINT empty_world
              (mk_result "1.2.3.4:8080" "http" (Some 503) (Some 250) None false
                         TARGET_ENDPOINT 1500800))
    as (_ & (msg & Hmsg) & _).
  - simpl. discriminate.
  - reflexivity.
  - discriminate.
Qed.

(** *** Harvesting *)

Lemma merged_candidates_witness :
  pairwise_distinct [(AStr "1.2.3.4", 80, "http"); (AStr "5.6.7.8", 1080, "socks5")].
Proof.
  apply (proj1 merged_candidates_are_unique
           [[(JStr "1.2.3.4", 80, "http")];
            [(JStr "1.2.3.4", 80, "http"); (JStr "5.6.7.8", 1080, "socks5")]]).
  reflexivity.
Defined.


(** C7 as the specification words it: whatever the sources send, the
    harvest returns. *)
Definition harvest_never_aborts : Prop :=
  forall E w, exists s, value (harvest_all E) w = Ok s.

(** The eight text sources are fine and geonode sends an entry with port
    "n/a": [int] raises, and so does the harvest. *)
Lemma malformed_geonode_entry_aborts : ~ harvest_never_aborts.
Proof.
  intros H. destruct (H bad_geonode_env empty_world) as (s & Hs).
  vm_compute in Hs. discriminate.
Qed.

Lemma failing_source_witness :
  (exists s, value (harvest_all sample_env) empty_world = Ok s) /\
  (exists s, value (harvest_all text_env) empty_world = Ok s).
Proof.
  split.
  - apply (proj2 (proj2 (proj2 (proj2 failing_source_does_not_abort)))).
    intros n url. exact I.
  - apply (proj2 (proj2 (proj2 (proj2 failing_source_does_not_abort)))).
    intros n url. exact I.
Defined.

(** C9 as the specification words it: every harvested port is between 1
    and 65535. *)
Definition harvested_ports_are_valid : Prop :=
  forall name raw cands,
    harvest_payload name raw = Ok cands ->
    Forall (fun c => 1 <= port_of c <= 65535) cands.

(** The line "1.2.3.4:99999" of a text list gives the port 99999. *)
Lemma text_port_out_of_range : ~ harvested_ports_are_valid.
Proof.
  intros H.
  specialize (H "the_speedx_http" (JStr "1.2.3.4:99999")
                [(JStr "1.2.3.4", 99999, "http")] eq_refl).
  inversion H as [|c l Hc _]; subst. unfold port_of in Hc. simpl in Hc. lia.
Qed.

Example bad_geonode_harvest :
  value (harvest_all bad_geonode_env) empty_world = Raise ValueError.
Proof. vm_compute. reflexivity. Qed.

Example out_of_range_text_port :
  harvest_payload "the_speedx_http" (JStr "1.2.3.4:99999") =
  Ok [(JStr "1.2.3.4", 99999, "http")].
Proof. vm_compute. reflexivity. Qed.

Example busy_endpoint_record :
  value (test_proxy_against_endpoint busy_env first_probe TARGET_ENDPOINT) empty_world =
  Ok (mk_result "1.2.3.4:8080" "http" (Some 503) (Some 250) None false
                TARGET_ENDPOINT 1500800).
Proof. vm_compute. reflexivity. Qed.

(** * Further properties of the program *)

(** ** What leaves the collection alone *)

Definition same_store (w w' : world) : Prop := collection w' = collection w.

Lemma same_store_refl w : same_store w w.
Proof. reflexivity. Qed.

Lemma same_store_trans a b c : same_store a b -> same_store b c -> same_store a c.
Proof. unfold same_store. congruence. Qed.

Lemma same_store_frame w w' : collection w' = collection w -> same_store w w'.
Proof. auto. Qed.

Lemma harvest_all_same_store E w : collection (exec (harvest_all E) w) = collection w.
Proof.
  apply (stable_harvest_all E same_store same_store_refl same_store_trans same_store_frame).
Qed.

Lemma validate_proxy_same_store E p w :
  collection (exec (validate_proxy E p) w) = collection w.
Proof.
  apply (stable_validate_proxy E same_store same_store_refl same_store_trans
           same_store_frame).
Qed.

Lemma exec_bind {A B} (m : M A) (f : A -> M B) w :
  exec (bind m f) w =
  match value m w with
  | Ok a => exec (f a) (exec m w)
  | Raise _ => exec m w
  end.
Proof.
  unfold exec, value, bind. destruct (m w) as [[a|e] w1]; reflexivity.
Qed.

Lemma value_bind {A B} (m : M A) (f : A -> M B) w :
  value (bind m f) w =
  match value m w with
  | Ok a => value (f a) (exec m w)
  | Raise e => Raise e
  end.
Proof.
  unfold exec, value, bind. destruct (m w) as [[a|e] w1]; reflexivity.
Qed.

(** ** Invariants of the collection *)

(** A row as [validate_proxy] makes it. *)
Definition stored_shape (d : proxy_doc) : Prop :=
  is_working d = true /\ status_code d = 200 /\ test_url d = VALIDATION_URL.

Lemma validate_proxy_shape E p w d :
  value (validate_proxy E p) w = Ok (Some d) -> stored_shape d /\ key_of d = p.
Proof.
  destruct p as [[i pt] proto]. unfold value. rewrite validate_proxy_eq. cbv zeta.
  destruct (requests_get E (List.length (sent w))
              (probe_request VALIDATION_URL i pt proto)) as [st|msg];
    [destruct (st =? 200) eqn:Hst|]; simpl; try discriminate.
  intros H. inversion H; subst d. apply Z.eqb_eq in Hst. subst st.
  repeat split.
Qed.

Lemma store_proxy_shape E doc w :
  stored_shape doc ->
  Forall stored_shape (collection w) ->
  Forall stored_shape (collection (exec (store_proxy E doc) w)).
Proof.
  intros Hd Hw. unfold exec. rewrite store_proxy_eq.
  destruct (existsb (same_key (key_of doc)) (collection w)); simpl.
  - induction Hw as [|r c Hr Hc IH]; simpl; [constructor|].
    destruct (same_key (key_of doc) r); constructor; auto.
  - apply Forall_app. auto.
Qed.

(** One turn of the loop of [validate_and_store_all]. *)
Definition sweep_step (E : env) (p : candidate) : M unit :=
  doc <- validate_proxy E p ;;
  match doc with
  | Some d => store_proxy E d
  | None => ret tt
  end.

Lemma sweep_cons E p proxies w :
  exec (validate_and_store_all E (p :: proxies)) w =
  exec (validate_and_store_all E proxies) (exec (sweep_step E p) w).
Proof.
  unfold validate_and_store_all. cbn [for_each]. fold (sweep_step E p).
  destruct (validate_and_store_one E p w) as (w1 & Hstep & _).
  fold (sweep_step E p) in Hstep.
  unfold exec at 1. rewrite (bind_ok _ _ _ _ _ Hstep).
  unfold exec at 2. rewrite Hstep. reflexivity.
Qed.

(** The collection after one turn: untouched unless the probe is answered
    with status 200, and then what [store_proxy] makes of the record. *)
Lemma sweep_step_collection E p w :
  collection (exec (sweep_step E p) w) = collection w \/
  exists d,
    value (validate_proxy E p) w = Ok (Some d) /\
    collection (exec (sweep_step E p) w) =
    collection (exec (store_proxy E d) (exec (validate_proxy E p) w)).
Proof.
  unfold sweep_step. rewrite exec_bind.
  destruct (value (validate_proxy E p) w) as [[d|]|e] eqn:Hv.
  - right. exists d. auto.
  - left. apply validate_proxy_same_store.
  - left. apply validate_proxy_same_store.
Qed.

Lemma sweep_step_shape E p w :
  Forall stored_shape (collection w) ->
  Forall stored_shape (collection (exec (sweep_step E p) w)).
Proof.
  intros Hw. destruct (sweep_step_collection E p w) as [->|(d & Hv & ->)];
    [assumption|].
  apply store_proxy_shape.
  - apply (validate_proxy_shape E p w d Hv).
  - now rewrite validate_proxy_same_store.
Qed.

Lemma sweep_shape E proxies : forall w,
  Forall stored_shape (collection w) ->
  Forall stored_shape (collection (exec (validate_and_store_all E proxies) w)).
Proof.
  induction proxies as [|p proxies IH]; intros w Hw; [exact Hw|].
  rewrite sweep_cons. apply IH. now apply sweep_step_shape.
Qed.

Lemma test_all_same_store E url w :
  collection (exec (test_all_proxies_against_endpoint E url) w) = collection w.
Proof.
  apply (stable_test_all E same_store same_store_refl same_store_trans same_store_frame).
Qed.

Lemma get_proxy_stats_same_world w : exec get_proxy_stats w = w.
Proof. reflexivity. Qed.

(** The operations that only read the collection. *)
Lemma reading_operation_same_store E o w :
  o <> OpHarvest -> collection (exec (run_operation E o) w) = collection w.
Proof.
  destruct o as [|url|]; intros Ho; [congruence| |reflexivity].
  cbn [run_operation]. rewrite exec_bind.
  destruct (value (test_all_proxies_against_endpoint E url) w);
    apply test_all_same_store.
Qed.

Lemma run_operation_shape E o w :
  Forall stored_shape (collection w) ->
  Forall stored_shape (collection (exec (run_operation E o) w)).
Proof.
  intros Hw. destruct o as [|url|].
  - cbn [run_operation]. unfold run_once. rewrite exec_bind.
    destruct (value (harvest_all E) w) as [s|e].
    + apply sweep_shape. now rewrite harvest_all_same_store.
    + now rewrite harvest_all_same_store.
  - rewrite reading_operation_same_store by discriminate. exact Hw.
  - rewrite reading_operation_same_store by discriminate. exact Hw.
Qed.

(** X1.  The program stores only working proxies: if every row is as
    [validate_proxy] makes it ([is_working] true, status 200, checked
    against [VALIDATION_URL]), which holds of the empty collection, then
    so it is after any operations, and [get_proxy_stats] then reports as
    many working proxies as rows. *)
Theorem only_working_proxies_are_stored E ops w :
  Forall stored_shape (collection w) ->
  let w' := run_operations E ops w in
  Forall stored_shape (collection w') /\
  exists n, value get_proxy_stats w' = Ok (n, n).
Proof.
  intros Hw w'.
  assert (H : Forall stored_shape (collection w')).
  { subst w'. revert w Hw. induction ops as [|o ops IH]; intros w Hw; [exact Hw|].
    cbn [run_operations]. apply IH. now apply run_operation_shape. }
  split; [exact H|].
  exists (List.length (collection w')). unfold value, get_proxy_stats, bind, read_collection, ret.
  cbn [fst]. f_equal. f_equal.
  unfold find_working. clear -H.
  induction H as [|d c Hd Hc IH]; [reflexivity|].
  destruct Hd as (Hd & _). simpl. rewrite Hd. simpl. now rewrite IH.
Qed.

(** X2.  The unique index holds after any operations: no two rows ever
    have the same (ip, port, protocol). *)
Theorem unique_index_is_invariant E ops w :
  unique_index (collection w) ->
  unique_index (collection (run_operations E ops w)).
Proof.
  apply (stable_run_operations E
           (fun w w' => unique_index (collection w) -> unique_index (collection w'))).
  - auto.
  - auto.
  - intros w0 w1 ->. auto.
  - intros doc w0. apply store_proxy_unique.
Qed.

(** ** What a harvest sweep stores *)

(** The probe of [p] in the world [w] is answered with status 200. *)
Definition answered_200 (E : env) (w : world) (p : candidate) : bool :=
  let '(i, pt, proto) := p in
  match requests_get E (List.length (sent w)) (probe_request VALIDATION_URL i pt proto) with
  | Responded status => status =? 200
  | Failed _ => false
  end.

Lemma sweep_step_keys E p w :
  map key_of (collection (exec (sweep_step E p) w)) =
  if (answered_200 E w p && negb (existsb (same_key p) (collection w)))%bool
  then map key_of (collection w) ++ [p]
  else map key_of (collection w).
Proof.
  destruct p as [[i pt] proto].
  unfold sweep_step, exec, bind, answered_200. rewrite validate_proxy_eq. cbv zeta.
  destruct (requests_get E (List.length (sent w))
              (probe_request VALIDATION_URL i pt proto)) as [st|msg];
    [destruct (st =? 200)|]; try reflexivity.
  rewrite store_proxy_eq. unfold key_of at 1 2. cbn [collection ip port protocol andb].
  destruct (existsb (same_key (i, pt, proto)) (collection w)); cbn [negb snd collection].
  - apply map_key_update_one.
  - now rewrite map_app.
Qed.



(** X3.  A harvest sweep stores nothing but submitted candidates: an
    identity in the collection after the sweep was there before or is one
    of the candidates.  When no probe is answered with status 200, the
    collection is left as it was. *)
Theorem sweep_stores_only_candidates E proxies w :
  (forall k,
     In k (map key_of (collection (exec (validate_and_store_all E proxies) w))) ->
     In k (map key_of (collection w)) \/ In k proxies) /\
  ((forall n r, requests_get E n r <> Responded 200) ->
   collection (exec (validate_and_store_all E proxies) w) = collection w).
Proof.
  split.
  - revert w. induction proxies as [|p proxies IH]; intros w k Hk; [now left|].
    rewrite sweep_cons in Hk. apply IH in Hk as [Hk|Hk]; [|right; now right].
    rewrite sweep_step_keys in Hk.
    destruct (answered_200 E w p && negb (existsb (same_key p) (collection w)))%bool;
      [|now left].
    apply in_app_or in Hk as [Hk|[<-|[]]]; [now left|right; now left].
  - intros Hno. revert w. induction proxies as [|p proxies IH]; intros w; [reflexivity|].
    rewrite sweep_cons, IH.
    destruct (sweep_step_collection E p w) as [Hc|(d & Hv & _)]; [exact Hc|].
    exfalso. destruct p as [[i pt] proto]. unfold value in Hv.
    rewrite validate_proxy_eq in Hv. cbv zeta in Hv.
    destruct (requests_get E (List.length (sent w))
                (probe_request VALIDATION_URL i pt proto)) as [st|msg] eqn:Hr;
      [destruct (st =? 200) eqn:Hst|]; try discriminate.
    apply Z.eqb_eq in Hst. subst st. exact (Hno _ _ Hr).
Qed.


(** X5.  Validating again candidates that are all stored adds no row and
    changes no identity: the sweep only refreshes rows. *)
Theorem sweep_over_stored_candidates_adds_no_row E proxies : forall w,
  (forall p, In p proxies -> In p (map key_of (collection w))) ->
  map key_of (collection (exec (validate_and_store_all E proxies) w)) =
  map key_of (collection w).
Proof.
  induction proxies as [|p proxies IH]; intros w H; [reflexivity|].
  rewrite sweep_cons.
  assert (Hstep : map key_of (collection (exec (sweep_step E p) w)) =
                  map key_of (collection w)).
  { rewrite sweep_step_keys.
    assert (Hex : existsb (same_key p) (collection w) = true)
      by (apply has_key_In, H; now left).
    rewrite Hex, andb_false_r. reflexivity. }
  rewrite IH; [exact Hstep|].
  intros q Hq. rewrite Hstep. apply H. now right.
Qed.

(** ** The endpoint sweep *)

Definition endpoint_request (url : string) (d : proxy_doc) : request :=
  probe_request url (ip d) (port d) (protocol d).

(** The two shapes of a result, and how [success] goes with the status. *)
Definition result_consistent (url : string) (r : endpoint_result) : Prop :=
  r_endpoint r = url /\
  (r_success r = true <-> r_status_code r = Some 200) /\
  match r_error r with
  | Some _ => r_status_code r = None /\ r_response_time r = None
  | None => exists status t, r_status_code r = Some status /\ r_response_time r = Some t
  end.

Lemma test_proxy_run E doc url w :
  exists r w1,
    test_proxy_against_endpoint E doc url w = (Ok r, w1) /\
    sent w1 = sent w ++ [endpoint_request url doc] /\
    collection w1 = collection w /\
    result_consistent url r.
Proof.
  rewrite test_proxy_eq. cbv zeta.
  destruct (requests_get E (List.length (sent w))
              (probe_request url (ip doc) (port doc) (protocol doc))) as [st|msg];
    eexists; eexists; (split; [reflexivity|]); repeat split; simpl; eauto;
    try discriminate.
  - intros H. apply Z.eqb_eq in H. now subst.
  - intros H. inversion H. reflexivity.
Qed.

Lemma test_loop_run E url docs : forall acc w,
  exists rs w1,
    for_fold docs
      (fun results proxy =>
         r <- test_proxy_against_endpoint E proxy url ;;
         ret (results ++ [r])) acc w = (Ok (acc ++ rs), w1) /\
    sent w1 = sent w ++ map (endpoint_request url) docs /\
    collection w1 = collection w /\
    Forall (result_consistent url) rs.
Proof.
  induction docs as [|d docs IH]; intros acc w.
  - exists [], w. simpl. rewrite !app_nil_r. repeat split. constructor.
  - destruct (test_proxy_run E d url w) as (r & w1 & Hr & Hs & Hc & Hok).
    destruct (IH (acc ++ [r]) w1) as (rs & w2 & Hrs & Hs2 & Hc2 & Hok2).
    exists (r :: rs), w2. cbn [for_fold].
    rewrite (bind_ok _ _ w (acc ++ [r]) w1).
    + rewrite Hrs, <- app_assoc. split; [reflexivity|].
      rewrite Hs2, Hs, Hc2, Hc, <- app_assoc. repeat split. now constructor.
    + unfold bind. rewrite Hr. reflexivity.
Qed.

Lemma test_all_unfold E url w :
  test_all_proxies_against_endpoint E url w =
  match find_working (collection w) with
  | [] => (Ok [], w)
  | working_proxies =>
      for_fold working_proxies
        (fun results proxy =>
           r <- test_proxy_against_endpoint E proxy url ;;
           ret (results ++ [r])) [] w
  end.
Proof.
  unfold test_all_proxies_against_endpoint, bind at 1, read_collection.
  destruct (find_working (collection w)); reflexivity.
Qed.

(** X6.  With no working proxy in the collection the endpoint test returns
    the empty list at once: no request is sent, the clock is not read, the
    world is as before. *)
Theorem endpoint_test_of_empty_working_set E url w :
  find_working (collection w) = [] ->
  test_all_proxies_against_endpoint E url w = (Ok [], w).
Proof.
  intros H. rewrite test_all_unfold, H. reflexivity.
Qed.

(** X7.  The endpoint sweep sends exactly one request per working proxy,
    in some order: each to the given endpoint, with the timeout of 8
    seconds and the mapping [{proto: url}] made of the row ([proto + "s"]
    as a second key when the protocol starts with "http", [url] being
    [proto://ip:port]); and it writes nothing to the collection. *)
Theorem endpoint_sweep_probes_each_working_proxy_once E url w :
  let w' := exec (test_all_proxies_against_endpoint E url) w in
  exists new,
    sent w' = sent w ++ new /\
    Permutation new
      (map (fun d =>
              let u := (protocol d ++ "://" ++ py_str (ip d) ++ ":" ++
                        str_of_int (port d))%string in
              mk_request url
                (if String.prefix "http" (protocol d)
                 then [(protocol d, u); ((protocol d ++ "s")%string, u)]
                 else [(protocol d, u)])
                8)
           (find_working (collection w))) /\
    collection w' = collection w.
Proof.
  cbv zeta. unfold exec. rewrite test_all_unfold.
  destruct (find_working (collection w)) as [|d ds] eqn:Hf.
  - exists []. simpl. rewrite app_nil_r. repeat split. constructor.
  - destruct (test_loop_run E url (d :: ds) [] w) as (rs & w1 & Hrs & Hs & Hc & _).
    rewrite Hrs. cbn [snd].
    exists (map (endpoint_request url) (d :: ds)).
    split; [exact Hs|]. split; [|exact Hc].
    apply Permutation_refl.
Qed.

(** X8.  Every record that the endpoint sweep returns names the endpoint
    tested, has [success] true exactly when its status code is 200, and
    has either an error message and neither status code nor response
    time, or a status code and a response time and no error message. *)
Theorem endpoint_results_are_consistent E url w results :
  value (test_all_proxies_against_endpoint E url) w = Ok results ->
  Forall (result_consistent url) results.
Proof.
  unfold value. rewrite test_all_unfold.
  destruct (find_working (collection w)) as [|d ds] eqn:Hf.
  - simpl. intros H. inversion H. constructor.
  - destruct (test_loop_run E url (d :: ds) [] w) as (rs & w1 & Hrs & _ & _ & Hok).
    rewrite Hrs. simpl. intros H. inversion H; subst. exact Hok.
Qed.

(** ** The geonode payload *)

Lemma rfold_app {A B} (f : B -> A -> result B) xs ys acc :
  rfold f (xs ++ ys) acc = rbind (rfold f xs acc) (rfold f ys).
Proof.
  revert acc. induction xs as [|x xs IH]; intros acc; simpl; [reflexivity|].
  destruct (f acc x); simpl; auto.
Qed.

(** A loop raises as soon as one of its turns does, whatever was
    accumulated. *)
Lemma rfold_raises {A B} (f : B -> A -> result B) xs bad :
  In bad xs ->
  (forall acc, exists e, f acc bad = Raise e) ->
  forall acc, exists e, rfold f xs acc = Raise e.
Proof.
  intros Hin Hbad. induction xs as [|x xs IH]; intros acc; [contradiction|].
  simpl. destruct (f acc x) as [acc'|e] eqn:Hx; simpl; [|eauto].
  destruct Hin as [->|Hin]; [|now apply IH].
  destruct (Hbad acc) as (e & He). congruence.
Qed.

(** An entry that the geonode branch reads without exception: an object
    whose port converts to an integer and whose protocols are a list of
    strings. *)
Definition well_formed_entry (item : json) : Prop :=
  exists fields z protos,
    item = JObj fields /\
    py_int (dict_get fields "port" (JInt 0)) = Ok z /\
    dict_get fields "protocols" (JArr []) = JArr (map JStr protos).

(** The tuples of an entry: one per protocol, in lower case, all with the
    [ip] and the port of the entry. *)
Definition entry_tuples (item : json) : list raw_candidate :=
  match item with
  | JObj fields =>
      match py_int (dict_get fields "port" (JInt 0)),
            dict_get fields "protocols" (JArr []) with
      | Ok z, JArr protos =>
          flat_map (fun p => match p with
                             | JStr s => [(dict_get fields "ip" JNull, z, lower s)]
                             | _ => []
                             end) protos
      | _, _ => []
      end
  | _ => []
  end.

Lemma protocols_fold (i : json) (z : Z) protos : forall results,
  rfold (fun results proto =>
           rbind (py_lower proto) (fun pr => Ok (results ++ [(i, z, pr)])))
        (map JStr protos) results =
  Ok (results ++
      flat_map (fun p => match p with
                         | JStr s => [(i, z, lower s)]
                         | _ => []
                         end) (map JStr protos)).
Proof.
  induction protos as [|p protos IH]; intros results; simpl.
  - now rewrite app_nil_r.
  - rewrite IH, <- app_assoc. reflexivity.
Qed.

Lemma harvest_geonode_item_ok results item :
  well_formed_entry item ->
  harvest_geonode_item results item = Ok (results ++ entry_tuples item).
Proof.
  intros (fields & z & protos & -> & Hport & Hprotos).
  unfold harvest_geonode_item, entry_tuples. cbn [py_get rbind].
  rewrite Hport, Hprotos. cbn [rbind py_iter].
  apply protocols_fold.
Qed.

(** X9.  A geonode payload whose entries are all well formed gives, entry
    after entry, one candidate per protocol of the entry, the protocol in
    lower case, with the [ip] and the integer port of the entry; a missing
    port counts as 0 and an entry without protocols gives nothing. *)
Theorem geonode_payload_of_well_formed_entries fields items :
  dict_get fields "data" (JArr []) = JArr items ->
  Forall well_formed_entry items ->
  harvest_payload "geonode" (JObj fields) = Ok (flat_map entry_tuples items) /\
  (forall item, In item items ->
     exists f z protos,
       item = JObj f /\
       py_int (dict_get f "port" (JInt 0)) = Ok z /\
       entry_tuples item =
       map (fun s => (dict_get f "ip" JNull, z, lower s)) protos).
Proof.
  intros Hdata Hall. split.
  - unfold harvest_payload. rewrite String.eqb_refl, Hdata.
    cbn [py_iter rbind].
    assert (G : forall acc,
               rfold harvest_geonode_item items acc =
               Ok (acc ++ flat_map entry_tuples items)).
    { clear Hdata. induction Hall as [|item items Hitem _ IH]; intros acc; simpl.
      - now rewrite app_nil_r.
      - rewrite harvest_geonode_item_ok by assumption. simpl.
        rewrite IH, <- app_assoc. reflexivity. }
    apply (G []).
  - intros item Hin. rewrite Forall_forall in Hall.
    destruct (Hall item Hin) as (f & z & protos & -> & Hport & Hprotos).
    exists f, z, protos. split; [reflexivity|]. split; [assumption|].
    unfold entry_tuples. rewrite Hport, Hprotos.
    clear. induction protos as [|p protos IH]; simpl; [reflexivity|].
    now rewrite IH.
Qed.

(** An entry on which the geonode branch raises. *)
Definition entry_raises (item : json) : Prop :=
  forall results, exists e, harvest_geonode_item results item = Raise e.

Lemma non_object_entry_raises item :
  (forall f, item <> JObj f) -> entry_raises item.
Proof.
  intros H results. exists AttributeError.
  destruct item; try reflexivity. now elim (H fields).
Qed.

Lemma bad_port_entry_raises f e :
  py_int (dict_get f "port" (JInt 0)) = Raise e -> entry_raises (JObj f).
Proof.
  intros H results. exists e. unfold harvest_geonode_item. cbn [py_get rbind].
  now rewrite H.
Qed.

(** X10.  One entry on which the geonode branch raises (an entry that is
    not an object, a port that [int] refuses) makes the whole payload
    raise: the candidates of the other entries are lost with it. *)
Theorem geonode_payload_with_bad_entry_raises fields items bad :
  dict_get fields "data" (JArr []) = JArr items ->
  In bad items ->
  (forall f, bad <> JObj f) \/
  (exists f e, bad = JObj f /\ py_int (dict_get f "port" (JInt 0)) = Raise e) ->
  exists e, harvest_payload "geonode" (JObj fields) = Raise e.
Proof.
  intros Hdata Hin Hbad.
  unfold harvest_payload. rewrite String.eqb_refl, Hdata.
  cbn [py_iter rbind].
  apply (rfold_raises harvest_geonode_item items bad Hin).
  destruct Hbad as [H|(f & e & -> & H)].
  - now apply non_object_entry_raises.
  - now apply (bad_port_entry_raises f e).
Qed.

(** ** Where text candidates come from *)

(** A group of one to three digits. *)
Definition octet (o : list ascii) : Prop :=
  digits o /\ (1 <= List.length o <= 3)%nat.

(** The text [o1.o2.o3.o4]. *)
Definition dotted (o1 o2 o3 o4 : list ascii) : list ascii :=
  o1 ++ "."%char :: o2 ++ "."%char :: o3 ++ "."%char :: o4.

Lemma lang_octet s : lang (repeat_range Digit 1 3) s -> octet s.
Proof.
  intros H. split.
  - revert H. apply repeat_range_chars, lang_Digit_chars.
  - apply (repeat_range_length Digit lang_Digit_single) in H. simpl in H. lia.
Qed.

Lemma octet_not_colon o : octet o -> Forall not_colon o.
Proof. intros [H _]. now apply digits_not_colon. Qed.

Lemma dotted_not_colon o1 o2 o3 o4 :
  octet o1 -> octet o2 -> octet o3 -> octet o4 ->
  Forall not_colon (dotted o1 o2 o3 o4).
Proof.
  intros H1 H2 H3 H4. unfold dotted.
  repeat first [apply Forall_app; split | apply Forall_cons; [reflexivity|]];
    auto using octet_not_colon.
Qed.

(** A match of [IP_PORT_REGEX], piece by piece. *)
Lemma lang_IP_PORT_pieces m :
  lang IP_PORT_REGEX m ->
  exists o1 o2 o3 o4 p,
    m = dotted o1 o2 o3 o4 ++ ":"%char :: p /\
    octet o1 /\ octet o2 /\ octet o3 /\ octet o4 /\
    digits p /\ (2 <= List.length p <= 5)%nat.
Proof.
  unfold IP_PORT_REGEX. unfold repeat_range at 1.
  cbn [lang exactly at_most Nat.sub].
  intros (s1 & s2 & -> &
          (a & b & -> &
           (x1 & y1 & -> & (o1 & d1 & -> & H1 & ->) &
            x2 & y2 & -> & (o2 & d2 & -> & H2 & ->) &
            x3 & y3 & -> & (o3 & d3 & -> & H3 & ->) & ->) & ->) &
          o4 & s4 & -> & H4 & c & p & -> & -> & Hp).
  exists o1, o2, o3, o4, p.
  split; [unfold dotted; repeat (rewrite <- app_assoc; simpl); reflexivity|].
  repeat split; try (apply lang_octet; assumption).
  - revert Hp. apply repeat_range_chars, lang_Digit_chars.
  - apply (repeat_range_length Digit lang_Digit_single) in Hp. simpl in Hp. lia.
  - apply (repeat_range_length Digit lang_Digit_single) in Hp. simpl in Hp. lia.
Qed.

(** A match is a piece of the text. *)
Lemma findall_from_piece r s : forall skip m,
  In m (findall_from r skip s) -> exists pre post, s = pre ++ m ++ post.
Proof.
  induction s as [|c s IH]; intros skip m Hin; [contradiction|].
  assert (Htail : forall n, In m (findall_from r n s) ->
                            exists pre post, c :: s = pre ++ m ++ post).
  { intros n Hn. destruct (IH n m Hn) as (pre & post & ->).
    exists (c :: pre), post. reflexivity. }
  simpl in Hin. destruct skip as [|n]; [|eauto].
  destruct (match_length r (c :: s)) as [[|n]|] eqn:Hm; eauto.
  destruct Hin as [<-|Hin]; [|eauto].
  exists [], (skipn (S n) (c :: s)). simpl.
  f_equal. symmetry. apply firstn_skipn.
Qed.

(** X11.  No candidate of a text payload is invented: each is read off a
    piece [o1.o2.o3.o4:p] of the text, with four groups of one to three
    digits and a port of two to five digits; its host is [o1.o2.o3.o4],
    its port the value of [p], and its protocol the one hinted by the name
    of the source, one of http, socks5 and socks4. *)
Theorem text_candidates_come_from_the_text name text cands :
  harvest_payload name (JStr text) = Ok cands ->
  Forall (fun c =>
            exists pre o1 o2 o3 o4 p post,
              list_ascii_of_string text =
              pre ++ (dotted o1 o2 o3 o4 ++ ":"%char :: p) ++ post /\
              octet o1 /\ octet o2 /\ octet o3 /\ octet o4 /\
              digits p /\ (2 <= List.length p <= 5)%nat /\
              c = (JStr (string_of_list_ascii (dotted o1 o2 o3 o4)),
                   digits_val p, proto_hint name) /\
              In (proto_hint name) ["http"; "socks5"; "socks4"]) cands.
Proof.
  rewrite harvest_payload_text. intros H. inversion H; subst cands. clear H.
  apply Forall_forall. intros c Hc. apply in_map_iff in Hc as (m & <- & Hm).
  pose proof (findall_from_lang IP_PORT_REGEX (list_ascii_of_string text) 0) as Hall.
  rewrite Forall_forall in Hall. specialize (Hall m Hm).
  apply findall_from_piece in Hm as (pre & post & Htext).
  apply lang_IP_PORT_pieces in Hall
    as (o1 & o2 & o3 & o4 & p & -> & H1 & H2 & H3 & H4 & Hp & Hlen).
  exists pre, o1, o2, o3, o4, p, post.
  repeat (split; [assumption|]). split.
  - unfold tuple_of_match.
    rewrite before_colon_app, after_colon_app by (now apply dotted_not_colon).
    reflexivity.
  - unfold proto_hint.
    destruct (contains "http" name); [simpl; auto|].
    destruct (contains "socks5" name); simpl; auto.
Qed.

(** X12.  A text without a colon gives no candidate (and no exception). *)
Theorem text_without_colon_gives_nothing name text :
  Forall not_colon (list_ascii_of_string text) ->
  harvest_payload name (JStr text) = Ok [].
Proof.
  intros Hno. rewrite harvest_payload_text.
  destruct (findall IP_PORT_REGEX text) as [|m ms] eqn:Hf; [reflexivity|].
  exfalso.
  assert (Hm : In m (findall_from IP_PORT_REGEX 0 (list_ascii_of_string text)))
    by (unfold findall in Hf; rewrite Hf; now left).
  pose proof (findall_from_lang IP_PORT_REGEX (list_ascii_of_string text) 0) as Hall.
  rewrite Forall_forall in Hall. specialize (Hall m Hm).
  apply lang_IP_PORT in Hall as (i & p & -> & _).
  apply findall_from_piece in Hm as (pre & post & Htext).
  rewrite Htext in Hno.
  apply Forall_app in Hno as [_ Hno]. apply Forall_app in Hno as [Hno _].
  apply Forall_app in Hno as [_ Hno]. inversion Hno as [|? ? Hc _]. discriminate.
Qed.

(** ** Merging the same candidates again *)

Lemma add_tuple_absorbed s proxies :
  (forall i pt pr, In (i, pt, pr) proxies ->
     exists a c, hash_key i = Ok a /\ In c s /\ candidate_eqb (a, pt, pr) c = true) ->
  rfold add_tuple proxies s = Ok s.
Proof.
  induction proxies as [|[[i pt] pr] proxies IH]; intros H; [reflexivity|].
  simpl. destruct (H i pt pr (or_introl eq_refl)) as (a & c & -> & Hc & Heq).
  simpl. unfold set_add.
  assert (Hex : existsb (candidate_eqb (a, pt, pr)) s = true)
    by (apply existsb_exists; eauto).
  rewrite Hex. apply IH. intros i' pt' pr' Hin. apply H. now right.
Qed.

(** X13.  Candidates that were already merged change nothing: the set of
    [l] followed by tuples of [l] is the set of [l] (and raises when the
    set of [l] does). *)
Theorem merging_known_candidates_changes_nothing l l' :
  (forall p, In p l' -> In p l) ->
  unique_proxies (l ++ l') = unique_proxies l.
Proof.
  intros Hsub. rewrite !unique_proxies_fold, rfold_app.
  destruct (rfold add_tuple l []) as [s|e] eqn:Hl; [|reflexivity].
  cbn [rbind]. apply add_tuple_absorbed.
  intros i pt pr Hin.
  destruct (add_tuple_fold _ _ _ Hl) as (_ & _ & Hc & _).
  apply Hc, Hsub, Hin.
Qed.

(** ** Fetching and one full cycle *)

(** X14.  [fetch] never raises and asks the session once: an exception of
    the session, a status other than 200 and a body that is announced as
    JSON and does not decode all give [None]; a 200 answer gives the
    decoded JSON when the content type mentions json, else the text. *)
Theorem fetch_never_raises E url w :
  exists payload,
    fetch E url w = (Ok payload, after_fetch url w) /\
    match session_get E (List.length (fetched w)) url with
    | FetchFailed _ => payload = None
    | Fetched resp =>
        (resp_status resp <> 200 -> payload = None) /\
        (resp_status resp = 200 -> contains "json" (content_type resp) = false ->
         payload = Some (JStr (resp_text resp))) /\
        (resp_status resp = 200 -> contains "json" (content_type resp) = true ->
         payload = match resp_json resp with Ok j => Some j | Raise _ => None end)
    end.
Proof.
  eexists. split; [apply fetch_eq|].
  unfold payload_of.
  destruct (session_get E (List.length (fetched w)) url) as [resp|msg]; [|reflexivity].
  destruct (resp_status resp =? 200) eqn:Hst.
  - apply Z.eqb_eq in Hst.
    destruct (contains "json" (content_type resp)); repeat split; congruence.
  - apply Z.eqb_neq in Hst. repeat split; congruence.
Qed.

Definition harvest_loop (E : env) (srcs : list (string * string))
           (acc : list (list raw_candidate)) : M (list (list raw_candidate)) :=
  for_fold srcs
    (fun results src =>
       r <- harvest_source E (fst src) (snd src) ;;
       ret (results ++ [r])) acc.

Lemma harvest_loop_cons E src srcs acc w :
  harvest_loop E (src :: srcs) acc w =
  match contribution (fst src) (session_get E (List.length (fetched w)) (snd src)) with
  | Ok r => harvest_loop E srcs (acc ++ [r]) (after_fetch (snd src) w)
  | Raise e => (Raise e, after_fetch (snd src) w)
  end.
Proof.
  unfold harvest_loop. cbn [for_fold]. unfold bind at 1. unfold bind at 1.
  rewrite harvest_source_eq.
  destruct (contribution (fst src) (session_get E (List.length (fetched w)) (snd src)));
    reflexivity.
Qed.

(** The loop over the sources only fetches; when it returns it has fetched
    every source, in order. *)
Lemma harvest_loop_world E srcs : forall acc w,
  let w' := exec (harvest_loop E srcs acc) w in
  clock_reads w' = clock_reads w /\ sent w' = sent w /\
  collection w' = collection w /\
  ((exists rs, value (harvest_loop E srcs acc) w = Ok rs) ->
   fetched w' = fetched w ++ map snd srcs).
Proof.
  induction srcs as [|src srcs IH]; intros acc w; cbv zeta.
  - unfold exec. simpl. rewrite app_nil_r. auto.
  - unfold exec, value in *. rewrite harvest_loop_cons.
    destruct (contribution (fst src) (session_get E (List.length (fetched w)) (snd src)))
      as [r|e].
    + destruct (IH (acc ++ [r]) (after_fetch (snd src) w)) as (H1 & H2 & H3 & H4).
      rewrite H1, H2, H3. repeat split; try reflexivity.
      intros Hok. rewrite (H4 Hok). simpl. now rewrite <- app_assoc.
    + cbn [fst snd]. repeat split; try reflexivity.
      intros (rs & Hrs). discriminate.
Qed.

(** X15.  Harvesting sends no proxied request, reads no clock and writes
    nothing to the collection; when it returns, it has fetched each of the
    configured sources exactly once, in the order of [SOURCES]. *)
Theorem harvest_all_only_fetches E w :
  let w' := exec (harvest_all E) w in
  clock_reads w' = clock_reads w /\ sent w' = sent w /\
  collection w' = collection w /\
  ((exists s, value (harvest_all E) w = Ok s) ->
   fetched w' = fetched w ++ map snd SOURCES).
Proof.
  cbv zeta. pose proof (harvest_loop_world E SOURCES [] w) as H. cbv zeta in H.
  unfold harvest_all. fold (harvest_loop E SOURCES []).
  rewrite exec_bind, value_bind.
  destruct (value (harvest_loop E SOURCES []) w) as [rs|e] eqn:Hv.
  - destruct H as (H1 & H2 & H3 & H4). unfold exec at 1 3 5 7, lift. cbn [snd].
    repeat split; auto. intros _. apply H4. eauto.
  - destruct H as (H1 & H2 & H3 & _). repeat split; auto.
    intros (s & Hs). discriminate.
Qed.


(** ** Times *)

(** X17.  With a clock that never goes back, and a rounding that gives a
    non-negative result for a non-negative duration, the response time of
    a validation record and of an endpoint result is not negative, and the
    record is stamped no earlier than the start of its probe. *)
Theorem probe_times_follow_the_clock E :
  (forall n, clock E n <= clock E (S n)) ->
  (forall d, 0 <= d -> 0 <= round_ms E d) ->
  (forall p w d,
     value (validate_proxy E p) w = Ok (Some d) ->
     0 <= response_time d /\ clock E (clock_reads w) <= last_checked d) /\
  (forall doc url w r,
     value (test_proxy_against_endpoint E doc url) w = Ok r ->
     (forall t, r_response_time r = Some t -> 0 <= t) /\
     clock E (clock_reads w) <= r_timestamp r).
Proof.
  intros Hmono Hround. split.
  - intros [[i pt] proto] w d. unfold value. rewrite validate_proxy_eq. cbv zeta.
    destruct (requests_get E (List.length (sent w))
                (probe_request VALIDATION_URL i pt proto)) as [st|msg];
      [destruct (st =? 200)|]; simpl; try discriminate.
    intros H. inversion H; subst d. simpl.
    pose proof (Hmono (clock_reads w)). pose proof (Hmono (S (clock_reads w))).
    split; [apply Hround|]; lia.
  - intros doc url w r. unfold value. rewrite test_proxy_eq. cbv zeta.
    pose proof (Hmono (clock_reads w)). pose proof (Hmono (S (clock_reads w))).
    destruct (requests_get E (List.length (sent w))
                (probe_request url (ip doc) (port doc) (protocol doc))) as [st|msg];
      simpl; intros Hr; inversion Hr; subst r; simpl; (split; [|lia]);
      intros t Ht; inversion Ht; subst t.
    apply Hround. lia.
Qed.

(** ** Ports given as strings *)



(** ** A first insert *)


(** ** Concrete runs of the further properties *)

Definition sample_operations : list operation :=
  [OpHarvest; OpTestEndpoint TARGET_ENDPOINT; OpStats; OpHarvest].

Lemma stored_world_shape : Forall stored_shape (collection stored_world).
Proof. repeat constructor. Qed.

Lemma stored_world_unique : unique_index (collection stored_world).
Proof. repeat constructor. simpl. tauto. Qed.

Lemma only_working_proxies_witness :
  Forall stored_shape (collection (run_operations sample_env sample_operations stored_world)).
Proof.
  apply (only_working_proxies_are_stored sample_env sample_operations stored_world).
  exact stored_world_shape.
Defined.

Lemma unique_index_witness :
  unique_index (collection (run_operations sample_env sample_operations stored_world)).
Proof.
  apply (unique_index_is_invariant sample_env sample_operations stored_world).
  exact stored_world_unique.
Defined.

Definition sample_candidates : list candidate :=
  [(AStr "1.2.3.4", 8080, "http"); (AStr "5.6.7.8", 1080, "socks5")].

Lemma sweep_stores_only_candidates_witness :
  collection (exec (validate_and_store_all busy_env sample_candidates) stored_world) =
  collection stored_world.
Proof.
  apply (sweep_stores_only_candidates busy_env sample_candidates stored_world).
  intros n r. simpl. discriminate.
Defined.


Lemma sweep_over_stored_witness :
  map key_of (collection (exec (validate_and_store_all sample_env
                                  [(AStr "1.2.3.4", 8080, "http")]) stored_world)) =
  map key_of (collection stored_world).
Proof.
  apply (sweep_over_stored_candidates_adds_no_row sample_env).
  intros p [<-|[]]. simpl. left. reflexivity.
Defined.

Lemma endpoint_test_empty_witness :
  test_all_proxies_against_endpoint sample_env TARGET_ENDPOINT empty_world =
  (Ok [], empty_world).
Proof.
  apply (endpoint_test_of_empty_working_set sample_env TARGET_ENDPOINT empty_world).
  reflexivity.
Defined.

Lemma endpoint_sweep_witness :
  exists new,
    sent (exec (test_all_proxies_against_endpoint busy_env TARGET_ENDPOINT) stored_world)
    = new /\
    Permutation new
      [mk_request "http://16.171.170.83:3000/"
         [("http", "http://1.2.3.4:8080"); ("https", "http://1.2.3.4:8080")] 8].
Proof.
  destruct (endpoint_sweep_probes_each_working_proxy_once busy_env TARGET_ENDPOINT
              stored_world) as (new & Hsent & Hperm & _).
  exists new. split; [exact Hsent|exact Hperm].
Defined.

Lemma endpoint_results_witness :
  Forall (result_consistent TARGET_ENDPOINT)
    [mk_result "1.2.3.4:8080" "http" (Some 503) (Some 250) None false
               TARGET_ENDPOINT 1500800].
Proof.
  apply (endpoint_results_are_consistent busy_env TARGET_ENDPOINT stored_world).
  reflexivity.
Defined.

(** A geonode payload with a well-formed entry: the port is a string, the
    protocols are in upper case. *)
Definition good_entry : json :=
  JObj [("ip", JStr "1.2.3.4"); ("port", JStr "8080");
        ("protocols", JArr [JStr "HTTP"; JStr "SOCKS5"])].

Lemma good_entry_well_formed : well_formed_entry good_entry.
Proof.
  exists [("ip", JStr "1.2.3.4"); ("port", JStr "8080");
          ("protocols", JArr [JStr "HTTP"; JStr "SOCKS5"])], 8080, ["HTTP"; "SOCKS5"].
  repeat split.
Qed.

Lemma geonode_well_formed_witness :
  harvest_payload "geonode" (JObj [("data", JArr [good_entry])]) =
  Ok [(JStr "1.2.3.4", 8080, "http"); (JStr "1.2.3.4", 8080, "socks5")].
Proof.
  apply (geonode_payload_of_well_formed_entries [("data", JArr [good_entry])] [good_entry]).
  - reflexivity.
  - repeat constructor. exact good_entry_well_formed.
Defined.

Lemma geonode_bad_entry_witness :
  exists e,
    harvest_payload "geonode" (JObj [("data", JArr [good_entry; JStr "junk"])]) = Raise e.
Proof.
  apply (geonode_payload_with_bad_entry_raises
           [("data", JArr [good_entry; JStr "junk"])] [good_entry; JStr "junk"]
           (JStr "junk")).
  - reflexivity.
  - simpl. right. left. reflexivity.
  - left. intros f. discriminate.
Defined.

Lemma text_candidates_witness :
  Forall (fun c : raw_candidate => In (snd c) ["http"; "socks5"; "socks4"])
    [(JStr "1.2.3.4", 8080, "http"); (JStr "5.6.7.8", 3128, "http")].
Proof.
  pose proof (text_candidates_come_from_the_text "the_speedx_http" two_line_blob
                [(JStr "1.2.3.4", 8080, "http"); (JStr "5.6.7.8", 3128, "http")]
                eq_refl) as H.
  revert H. apply Forall_impl.
  intros c (pre & o1 & o2 & o3 & o4 & p & post & _ & _ & _ & _ & _ & _ & _ & -> & Hin).
  exact Hin.
Defined.

Lemma text_without_colon_witness :
  harvest_payload "the_speedx_http" (JStr "503 busy") = Ok [].
Proof.
  apply (text_without_colon_gives_nothing "the_speedx_http" "503 busy").
  repeat constructor.
Defined.

Lemma merging_known_candidates_witness :
  unique_proxies ([(JStr "1.2.3.4", 80, "http"); (JStr "5.6.7.8", 1080, "socks5")]
                  ++ [(JStr "1.2.3.4", 80, "http")]) =
  unique_proxies [(JStr "1.2.3.4", 80, "http"); (JStr "5.6.7.8", 1080, "socks5")].
Proof.
  apply (merging_known_candidates_changes_nothing
           [(JStr "1.2.3.4", 80, "http"); (JStr "5.6.7.8", 1080, "socks5")]
           [(JStr "1.2.3.4", 80, "http")]).
  intros p [<-|[]]. left. reflexivity.
Defined.

Lemma harvest_all_only_fetches_witness :
  fetched (exec (harvest_all text_env) empty_world) = map snd SOURCES.
Proof.
  apply (harvest_all_only_fetches text_env empty_world).
  eexists. vm_compute. reflexivity.
Defined.


Lemma sample_clock_monotone : forall n, sample_clock n <= sample_clock (S n).
Proof. intros n. unfold sample_clock. lia. Qed.

Lemma round_nearest_nonneg : forall d, 0 <= d -> 0 <= round_nearest d.
Proof. intros d Hd. unfold round_nearest. apply Z.div_pos; lia. Qed.

Lemma probe_times_witness :
  0 <= response_time
         (mk_doc (AStr "1.2.3.4") 8080 "http" true 250 1500800 200 VALIDATION_URL) /\
  clock sample_env (clock_reads empty_world) <=
  last_checked
    (mk_doc (AStr "1.2.3.4") 8080 "http" true 250 1500800 200 VALIDATION_URL).
Proof.
  apply (proj1 (probe_times_follow_the_clock sample_env sample_clock_monotone
                  round_nearest_nonneg)
           (AStr "1.2.3.4", 8080, "http") empty_world).
  reflexivity.
Defined.


